(** * The chat client of the encyclopedia agent: citation highlighting and
      session continuity

    A shallow embedding of the browser script of the static site (the
    class [ChatApp], in its later revision, the one with citations and
    sessions): the citation highlighter [addMessageWithCitations] and the
    request driver [sendMessage].  JavaScript strings are lists of code
    units, and a code unit is an [ascii]; the loop that builds the markup
    is written once, over an arbitrary type of code units, so that the
    same definition runs on plain characters and on characters that
    remember where they come from.  An [async] method is cut at its
    [await]: the part before it returns the request it issues, the part
    after it takes what the network brought back. *)

From Stdlib Require Import String Ascii DecimalString.
From Stdlib Require Import ZArith Bool Lia List Permutation Sorted.
Import ListNotations.

Local Open Scope Z_scope.

(** ** The string and array primitives of the host language *)

Module JS.

(** A string literal of the script as a list of code units. *)
Definition str (s : string) : list ascii := list_ascii_of_string s.

(** The double quote, for the attribute values of the markup. *)
Definition dq : ascii := "034"%char.

(** An index argument of [String.prototype.substring] is clamped to
    [0 .. length]. *)
Definition clamp (len : nat) (i : Z) : nat :=
  Z.to_nat (Z.min (Z.max i 0) (Z.of_nat len)).

(** [s.substring(a, b)]: both indices are clamped, and swapped when the
    first is the larger. *)
Definition substring {A : Type} (s : list A) (a b : Z) : list A :=
  let a' := clamp (length s) a in
  let b' := clamp (length s) b in
  let lo := Nat.min a' b' in
  let hi := Nat.max a' b' in
  firstn (hi - lo) (skipn lo s).

(** [s.substring(a)]: from the clamped index to the end. *)
Definition substring_from {A : Type} (s : list A) (a : Z) : list A :=
  skipn (clamp (length s) a) s.

(** [array.forEach((x, index) => ...)] for a callback that updates one
    captured variable: the variable is threaded through as state. *)
Fixpoint forEach_from {S T : Type} (f : S -> T -> nat -> S)
    (l : list T) (index : nat) (acc : S) : S :=
  match l with
  | [] => acc
  | x :: rest => forEach_from f rest (Datatypes.S index) (f acc x index)
  end.

Definition forEach {S T : Type} (f : S -> T -> nat -> S)
    (l : list T) (acc : S) : S :=
  forEach_from f l 0%nat acc.

(** [s.split(sep)] for a separator of one code unit. *)
Fixpoint split (sep : ascii) (s : list ascii) : list (list ascii) :=
  match s with
  | [] => [[]]
  | c :: rest =>
      if Ascii.eqb c sep then [] :: split sep rest
      else match split sep rest with
           | piece :: pieces => (c :: piece) :: pieces
           | [] => [[c]]
           end
  end.

(** [array.pop()] as the script uses it: the last element. *)
Definition pop (pieces : list (list ascii)) : list ascii :=
  last pieces [].

(** The decimal text of a non-negative index in a template literal. *)
Definition toString (n : nat) : list ascii :=
  str (NilEmpty.string_of_uint (Nat.to_uint n)).

(** [Array.prototype.sort(cmp)].  The language fixes the result when the
    comparator is consistent on the array: the stable sorted arrangement,
    which is what a stable insertion sort returns.  For any other
    comparator the order is left to the engine, and the model, a stable
    insertion sort, is one of the permitted results and need not be the one
    an engine returns.  The model is exact in two cases: the comparator is
    consistent on the array (for [compareCitations]: every citation carries
    a span, or at most one does), or the neighbours of the array all compare
    as "not after", an array that a run-detecting sort, as the engines of
    the browsers use, leaves as it is (lemma [sort_unchanged] below). *)
Fixpoint insert {T : Type} (cmp : T -> T -> Z) (x : T) (l : list T)
    : list T :=
  match l with
  | [] => [x]
  | y :: rest => if cmp x y <=? 0 then x :: y :: rest
                 else y :: insert cmp x rest
  end.

Fixpoint sort {T : Type} (cmp : T -> T -> Z) (l : list T) : list T :=
  match l with
  | [] => []
  | x :: rest => insert cmp x (sort cmp rest)
  end.

(** Neighbours compare as "not after". *)
Fixpoint locallySorted {T : Type} (cmp : T -> T -> Z) (l : list T) : Prop :=
  match l with
  | x :: (y :: _) as rest => cmp x y <= 0 /\ locallySorted cmp rest
  | _ => True
  end.

(** White space of [String.prototype.trim] among the code units below 256:
    tab, line feed, vertical tab, form feed, carriage return, space and
    the no-break space. *)
Definition isWhiteSpace (c : ascii) : bool :=
  let n := nat_of_ascii c in
  ((9 <=? n) && (n <=? 13) || (n =? 32) || (n =? 160))%nat.

Fixpoint trimStart (s : list ascii) : list ascii :=
  match s with
  | [] => []
  | c :: rest => if isWhiteSpace c then trimStart rest else s
  end.

Definition trim (s : list ascii) : list ascii :=
  rev (trimStart (rev (trimStart s))).

(** The values that reach [JSON.stringify] in the script. *)
Inductive Value : Type :=
| undefined
| null
| String (s : list ascii).

Definition hexDigit (n : nat) : ascii :=
  nth n (str "0123456789abcdef") "0"%char.

(** [QuoteJSONString], one code unit at a time. *)
Definition quoteUnit (c : ascii) : list ascii :=
  let n := nat_of_ascii c in
  if (n =? 34)%nat then str "\" ++ [dq]
  else if (n =? 92)%nat then str "\\"
  else if (n =? 8)%nat then str "\b"
  else if (n =? 9)%nat then str "\t"
  else if (n =? 10)%nat then str "\n"
  else if (n =? 12)%nat then str "\f"
  else if (n =? 13)%nat then str "\r"
  else if (n <? 32)%nat then
    str "\u00" ++ [hexDigit (n / 16); hexDigit (n mod 16)]
  else [c].

Definition quote (s : list ascii) : list ascii :=
  [dq] ++ flat_map quoteUnit s ++ [dq].

(** One property of an object literal: a property whose value is
    [undefined] is left out, [null] is written. *)
Definition serializeProperty (p : list ascii * Value)
    : option (list ascii) :=
  match snd p with
  | undefined => None
  | null => Some (quote (fst p) ++ str ":null")
  | String s => Some (quote (fst p) ++ str ":" ++ quote s)
  end.

Fixpoint join (sep : list ascii) (parts : list (list ascii))
    : list ascii :=
  match parts with
  | [] => []
  | [p] => p
  | p :: rest => p ++ sep ++ join sep rest
  end.

Fixpoint keepSome {T : Type} (l : list (option T)) : list T :=
  match l with
  | [] => []
  | Some x :: rest => x :: keepSome rest
  | None :: rest => keepSome rest
  end.

(** [JSON.stringify] of an object literal with the given properties. *)
Definition stringify (props : list (list ascii * Value)) : list ascii :=
  str "{" ++ join (str ",") (keepSome (map serializeProperty props))
          ++ str "}".

End JS.

(** ** Data model *)

(** A half-open range of code units of the answer. *)
Record Span : Type := { start : Z; end_ : Z }.

(** A citation whose [source] and [content] are there, as the highlighter
    reads it; [span] may be missing.  A citation that lacks one of the two
    is [Data.citation] below. *)
Record Citation : Type := {
  source : list ascii;
  content : list ascii;
  span : option Span
}.

(** What [contentDiv] holds after a message is added: plain text set
    through [textContent], or markup set through [innerHTML] followed by
    the child [citationsContainer]. *)
Inductive Rendered (A : Type) : Type :=
| TextContent (text : list A)
| InnerHTML (html : list A) (citationsContainer : list ascii).

Arguments TextContent {A} text.
Arguments InnerHTML {A} html citationsContainer.

(** ** The citation highlighter *)

(** The comparator handed to [sort]. *)
Definition compareCitations (a b : Citation) : Z :=
  match span a, span b with
  | Some sa, Some sb => start sb - start sa
  | _, _ => 0
  end.

Definition sortedCitations (citations : list Citation) : list Citation :=
  JS.sort compareCitations citations.

(** [citation.source.split('/').pop()] *)
Definition sourceFile (citation : Citation) : list ascii :=
  JS.pop (JS.split "/" (source citation)).

Definition tooltipContent (citation : Citation) : list ascii :=
  JS.str "Source: " ++ sourceFile citation ++ JS.str "<br>Excerpt: "
    ++ JS.substring (content citation) 0 100 ++ JS.str "...".

(** The opening tag of the marker, with the index the loop passes in. *)
Definition markerOpen (index : nat) : list ascii :=
  JS.str "<span class=" ++ [JS.dq] ++ JS.str "highlighted-text" ++ [JS.dq]
    ++ JS.str " data-citation-id=" ++ [JS.dq] ++ JS.toString index
    ++ [JS.dq] ++ JS.str ">".

(** Everything between the highlighted text and the text after it. *)
Definition markerClose (citation : Citation) : list ascii :=
  JS.str "<span class=" ++ [JS.dq] ++ JS.str "citation-tooltip" ++ [JS.dq]
    ++ JS.str ">" ++ tooltipContent citation ++ JS.str "</span></span>".

(** The footer, one [innerHTML +=] per citation of the list as received.
    The markup is taken as the script writes it.  The browser parses it and
    serialises it again at every [+=], which changes nothing unless a file
    name holds one of the code units [&], [<], [>]: those are then escaped
    or read as markup. *)
Definition footerHeader : list ascii := JS.str "<strong>Sources:</strong><br>".

Definition footerEntry (index : nat) (citation : Citation) : list ascii :=
  JS.str "[" ++ JS.toString (index + 1) ++ JS.str "] "
    ++ sourceFile citation ++ JS.str "<br>".

Definition citationsContainer (citations : list Citation) : list ascii :=
  JS.forEach (fun innerHTML citation index =>
                innerHTML ++ footerEntry index citation)
             citations footerHeader.

Section Highlighter.

(** The code units of the answer, and how a code unit written by the
    script becomes one of them. *)
Context {A : Type} (lit : ascii -> A).

(** The test of the loop body on the span of the citation. *)
Definition inBounds (processedContent : list A) (sp : Span) : bool :=
  let start := start sp in
  let end' := end_ sp in
  (start >=? 0) && (end' >? start)
  && (end' <=? Z.of_nat (length processedContent)).

(** The body of the loop over [sortedCitations]: one splice of
    [processedContent]. *)
Definition splice (processedContent : list A) (citation : Citation)
    (index : nat) : list A :=
  match span citation with
  | Some sp =>
      let start := start sp in
      let end' := end_ sp in
      if inBounds processedContent sp
      then
        let before := JS.substring processedContent 0 start in
        let highlighted := JS.substring processedContent start end' in
        let after := JS.substring_from processedContent end' in
        before ++ map lit (markerOpen index) ++ highlighted
               ++ map lit (markerClose citation) ++ after
      else processedContent
  | None => processedContent
  end.

(** The string handed to [innerHTML]. *)
Definition processedContent (content : list A) (citations : list Citation)
    : list A :=
  JS.forEach splice (sortedCitations citations) content.

Definition addMessageWithCitations (content : list A)
    (citations : option (list Citation)) : Rendered A :=
  match citations with
  | Some ((_ :: _) as citations) =>
      InnerHTML (processedContent content citations)
                (citationsContainer citations)
  | _ => TextContent content
  end.

End Highlighter.

(** The highlighter as the browser runs it, on plain code units. *)
Definition highlight (content : list ascii) (citations : list Citation)
    : list ascii :=
  processedContent (fun c => c) content citations.

(** What [addMessageWithCitations] puts into [contentDiv] in the
    browser. *)
Definition renderedWithCitations (content : list ascii)
    (citations : option (list Citation)) : Rendered ascii :=
  addMessageWithCitations (fun c => c) content citations.

(** ** Where a code unit of the output comes from *)

(** A code unit of the answer, or one written by the script. *)
Inductive CodeUnit : Type :=
| Original (c : ascii)
| Inserted (c : ascii).

Definition erase (u : CodeUnit) : ascii :=
  match u with
  | Original c => c
  | Inserted c => c
  end.

(** The answer as it enters the highlighter. *)
Definition answer (text : list ascii) : list CodeUnit := map Original text.

(** Stripping the inserted markup: what is left are the code units of the
    answer, in the order of the output. *)
Fixpoint strip (l : list CodeUnit) : list ascii :=
  match l with
  | [] => []
  | Original c :: rest => c :: strip rest
  | Inserted _ :: rest => strip rest
  end.


(** The highlighter run on an answer whose code units are tracked. *)
Definition highlightTracked (text : list ascii) (citations : list Citation)
    : list CodeUnit :=
  processedContent Inserted (answer text) citations.

(** ** Stripping read on the string itself *)

(** The round trip of the specification can also be read on the plain
    string: a stripper that knows the two tags of the highlighter drops
    every tag, and drops a tooltip from its opening tag to the closing tag
    that follows. *)
Inductive StripMode : Type :=
| Outside
| InTag
| InTooltip.

Definition tooltipOpen : list ascii :=
  JS.str "<span class=" ++ [JS.dq] ++ JS.str "citation-tooltip" ++ [JS.dq]
    ++ JS.str ">".

Definition spanClose : list ascii := JS.str "</span>".

Fixpoint startsWith (prefix s : list ascii) : bool :=
  match prefix, s with
  | [], _ => true
  | p :: prefix, c :: s => Ascii.eqb p c && startsWith prefix s
  | _ :: _, [] => false
  end.

Fixpoint stripFrom (mode : StripMode) (s : list ascii) : list ascii :=
  match s with
  | [] => []
  | c :: rest =>
      match mode with
      | Outside =>
          if startsWith tooltipOpen s then stripFrom InTooltip rest
          else if Ascii.eqb c "<" then stripFrom InTag rest
          else c :: stripFrom Outside rest
      | InTag =>
          if Ascii.eqb c ">" then stripFrom Outside rest
          else stripFrom InTag rest
      | InTooltip =>
          if startsWith spanClose s then stripFrom InTag rest
          else stripFrom InTooltip rest
      end
  end.

Definition stripMarkup (s : list ascii) : list ascii := stripFrom Outside s.

(** A string without the character that opens a tag. *)
Definition plainText (s : list ascii) : bool :=
  forallb (fun c => negb (Ascii.eqb c "<")) s.

(** A string without the character that closes a tag. *)
Definition noTagEnd (s : list ascii) : bool :=
  forallb (fun c => negb (Ascii.eqb c ">")) s.

(** [pattern] is found somewhere in [s]. *)
Fixpoint occurs (pattern s : list ascii) : bool :=
  match s with
  | [] => startsWith pattern []
  | _ :: rest => startsWith pattern s || occurs pattern rest
  end.

(** A citation whose tooltip, the name of the file and the first hundred
    code units of the excerpt, holds no closing tag of a [span]. *)
Definition tooltipKept (citation : Citation) : bool :=
  negb (occurs spanClose (tooltipContent citation)).

(** ** Vocabulary of the specification *)

(** A span is valid for a text of [len] code units:
    [0 <= start < end <= len]. *)
Definition validSpan (len : nat) (citation : Citation) : bool :=
  match span citation with
  | Some sp => (0 <=? start sp) && (start sp <? end_ sp)
               && (end_ sp <=? Z.of_nat len)
  | None => false
  end.

(** Two spans share no code unit. *)
Definition disjoint (a b : Span) : bool :=
  (end_ a <=? start b) || (end_ b <=? start a).

Definition nonOverlapping (a b : Citation) : bool :=
  match span a, span b with
  | Some sa, Some sb => disjoint sa sb
  | _, _ => true
  end.

(** Every two citations at different places of the list are
    non-overlapping. *)
Fixpoint pairwiseNonOverlapping (citations : list Citation) : bool :=
  match citations with
  | [] => true
  | citation :: rest =>
      forallb (nonOverlapping citation) rest && pairwiseNonOverlapping rest
  end.

(** Every span that is there is valid for a text of [len] code units. *)
Definition spansValid (len : nat) (citations : list Citation) : bool :=
  forallb (fun citation =>
             match span citation with
             | Some _ => validSpan len citation
             | None => true
             end)
          citations.

(** Every citation of the list carries a span. *)
Definition allSpans (citations : list Citation) : bool :=
  forallb (fun citation =>
             match span citation with
             | Some _ => true
             | None => false
             end)
          citations.

(** The two tests of the loop body together: the citation carries a span
    and the span is in bounds of the string. *)
Definition wraps {A : Type} (p : list A) (citation : Citation) : bool :=
  match span citation with
  | Some sp => inBounds p sp
  | None => false
  end.

(** The string being spliced when the loop reaches index [i] of
    [sortedCitations]. *)
Definition processedBefore {A : Type} (lit : ascii -> A)
    (content : list A) (citations : list Citation) (i : nat) : list A :=
  JS.forEach (splice lit) (firstn i (sortedCitations citations)) content.

(** The iteration at index [i] wraps its citation: the citation carries a
    span and the test of the loop body succeeds on the string the
    iteration finds. *)
Definition wrappedInline (content : list ascii) (citations : list Citation)
    (i : nat) : bool :=
  match nth_error (sortedCitations citations) i with
  | Some citation =>
      wraps (processedBefore (fun c => c) content citations i) citation
  | None => false
  end.

(** The bounds of the span of a citation that carries one. *)
Definition spanStart (citation : Citation) : Z :=
  match span citation with
  | Some sp => start sp
  | None => 0
  end.

Definition spanEnd (citation : Citation) : Z :=
  match span citation with
  | Some sp => end_ sp
  | None => 0
  end.

(** A citation with a span of at least one code unit, valid for [len]. *)
Definition proper (len : nat) (c : Citation) : Prop :=
  span c <> None /\ 0 <= spanStart c < spanEnd c
  /\ spanEnd c <= Z.of_nat len.

(** Each citation of the list ends where, or before, every citation in
    front of it starts. *)
Definition chained (citations : list Citation) : Prop :=
  StronglySorted (fun a b => spanEnd b <= spanStart a) citations.

(** The starts of the spans in the order in which the loop meets them. *)
Fixpoint spanStarts (citations : list Citation) : list Z :=
  match citations with
  | [] => []
  | citation :: rest =>
      match span citation with
      | Some sp => start sp :: spanStarts rest
      | None => spanStarts rest
      end
  end.

(** The order the claim on the sort asks for: the starts of the spans, as
    the loop meets them, strictly descending. *)
Definition strictlyDescending (citations : list Citation) : Prop :=
  StronglySorted Z.gt (spanStarts (sortedCitations citations)).

(** ** The request driver *)

Module Data.

(** A citation as it arrives in a body: the script checks none of its
    properties, so [source] and [content] may be missing as [span] may. *)
Record citation : Type := {
  source : JS.Value;
  content : JS.Value;
  span : option Span
}.

(** The body of a response that parses.  [response] is the answer, taken
    to be a string; [citations] may be missing, which the script tests;
    [sessionId] is stored as it comes, a string, [null], or [undefined] when
    the body has no such property. *)
Record t : Type := {
  response : list ascii;
  citations : option (list citation);
  sessionId : JS.Value
}.

End Data.

(** ** The highlighter on citations as they arrive *)

(** A citation whose properties are all there, as it arrives. *)
Definition arrived (citation : Citation) : Data.citation :=
  {| Data.source := JS.String (source citation);
     Data.content := JS.String (content citation);
     Data.span := span citation |}.

(** The comparator reads [span] only. *)
Definition compareArrived (a b : Data.citation) : Z :=
  match Data.span a, Data.span b with
  | Some sa, Some sb => start sb - start sa
  | _, _ => 0
  end.

(** What the loop body reads of a citation it wraps: [source.split] and
    [content.substring] throw when the property is missing. *)
Definition readCitation (citation : Data.citation) : option Citation :=
  match Data.source citation, Data.content citation with
  | JS.String source, JS.String content =>
      Some {| source := source;
              content := content;
              span := Data.span citation |}
  | _, _ => None
  end.

(** The loop body; [None] is an exception thrown, which ends the loop. *)
Definition spliceArrived (processedContent : option (list ascii))
    (citation : Data.citation) (index : nat) : option (list ascii) :=
  match processedContent with
  | None => None
  | Some processedContent =>
      match Data.span citation with
      | Some sp =>
          if inBounds processedContent sp then
            match readCitation citation with
            | Some read =>
                Some (splice (fun c => c) processedContent read index)
            | None => None
            end
          else Some processedContent
      | None => Some processedContent
      end
  end.

(** The loop of the footer: [source.split] throws for a citation without
    a source. *)
Definition footerArrived (citations : list Data.citation)
    : option (list ascii) :=
  JS.forEach
    (fun innerHTML citation index =>
       match innerHTML with
       | None => None
       | Some innerHTML =>
           match Data.source citation with
           | JS.String source =>
               Some (innerHTML ++ JS.str "[" ++ JS.toString (index + 1)
                       ++ JS.str "] " ++ JS.pop (JS.split "/" source)
                       ++ JS.str "<br>")
           | _ => None
           end
       end)
    citations (Some footerHeader).

(** What [addMessageWithCitations] builds for [contentDiv], or [None] when
    it throws; it throws before anything is appended to the transcript. *)
Definition renderArrived (content : list ascii)
    (citations : option (list Data.citation)) : option (Rendered ascii) :=
  match citations with
  | Some ((_ :: _) as citations) =>
      match JS.forEach spliceArrived (JS.sort compareArrived citations)
              (Some content) with
      | None => None
      | Some processedContent =>
          match footerArrived citations with
          | None => None
          | Some footer => Some (InnerHTML processedContent footer)
          end
      end
  | _ => Some (TextContent content)
  end.

Module Client.

Inductive MessageType : Type := user | bot.

(** One [messageDiv] of the transcript. *)
Record Message : Type := {
  type : MessageType;
  contentDiv : Rendered ascii
}.

Inductive Display : Type := flex | none.

(** The fields of [ChatApp] and the state of the page elements it
    holds. *)
Record ChatApp : Type := {
  apiUrl : JS.Value;
  sessionId : JS.Value;
  messageInput_value : list ascii;
  messageInput_disabled : bool;
  sendButton_disabled : bool;
  loading_display : Display;
  chatMessages : list Message
}.

(** The request handed to [fetch]. *)
Record Request : Type := {
  url : JS.Value;
  method : list ascii;
  contentType : list ascii;
  body : list ascii
}.

(** What the awaited [fetch] and [response.json()] bring back: the
    promise of [fetch] rejects, or a response arrives with a status and a
    body that parses ([Some]) or not ([None]). *)
Inductive FetchResult : Type :=
| Rejected
| Response (status : Z) (json : option Data.t).

(** [response.ok] *)
Definition ok (status : Z) : bool := (200 <=? status) && (status <=? 299).

(** How a [try] block ends. *)
Inductive Completion : Type :=
| Normal (app : ChatApp)
| Throw (app : ChatApp).

Definition constructor (value : list ascii) (inputDisabled sendDisabled : bool)
    (display : Display) (messages : list Message) : ChatApp :=
  {| apiUrl := JS.null;
     sessionId := JS.null;
     messageInput_value := value;
     messageInput_disabled := inputDisabled;
     sendButton_disabled := sendDisabled;
     loading_display := display;
     chatMessages := messages |}.

Definition appendChild (m : Message) (app : ChatApp) : ChatApp :=
  {| apiUrl := apiUrl app;
     sessionId := sessionId app;
     messageInput_value := messageInput_value app;
     messageInput_disabled := messageInput_disabled app;
     sendButton_disabled := sendButton_disabled app;
     loading_display := loading_display app;
     chatMessages := chatMessages app ++ [m] |}.

Definition addMessage (content : list ascii) (type : MessageType)
    (app : ChatApp) : ChatApp :=
  appendChild {| type := type; contentDiv := TextContent content |} app.

(** [addMessageWithCitations] on the page: the message is appended when
    the markup has been built, and nothing is when building it throws. *)
Definition addMessageWithCitations (content : list ascii)
    (citations : option (list Data.citation)) (app : ChatApp) : Completion :=
  match renderArrived content citations with
  | Some rendered =>
      Normal (appendChild {| type := bot; contentDiv := rendered |} app)
  | None => Throw app
  end.

Definition setLoading (isLoading : bool) (app : ChatApp) : ChatApp :=
  {| apiUrl := apiUrl app;
     sessionId := sessionId app;
     messageInput_value := messageInput_value app;
     messageInput_disabled := isLoading;
     sendButton_disabled := isLoading;
     loading_display := if isLoading then flex else none;
     chatMessages := chatMessages app |}.

Definition setValue (value : list ascii) (app : ChatApp) : ChatApp :=
  {| apiUrl := apiUrl app;
     sessionId := sessionId app;
     messageInput_value := value;
     messageInput_disabled := messageInput_disabled app;
     sendButton_disabled := sendButton_disabled app;
     loading_display := loading_display app;
     chatMessages := chatMessages app |}.

Definition setSessionId (id : JS.Value) (app : ChatApp) : ChatApp :=
  {| apiUrl := apiUrl app;
     sessionId := id;
     messageInput_value := messageInput_value app;
     messageInput_disabled := messageInput_disabled app;
     sendButton_disabled := sendButton_disabled app;
     loading_display := loading_display app;
     chatMessages := chatMessages app |}.

Definition setApiUrl (url : JS.Value) (app : ChatApp) : ChatApp :=
  {| apiUrl := url;
     sessionId := sessionId app;
     messageInput_value := messageInput_value app;
     messageInput_disabled := messageInput_disabled app;
     sendButton_disabled := sendButton_disabled app;
     loading_display := loading_display app;
     chatMessages := chatMessages app |}.

Definition enable (app : ChatApp) : ChatApp :=
  {| apiUrl := apiUrl app;
     sessionId := sessionId app;
     messageInput_value := messageInput_value app;
     messageInput_disabled := false;
     sendButton_disabled := false;
     loading_display := loading_display app;
     chatMessages := chatMessages app |}.

(** [init], given what the fetch of [/config.json] brings back: the
    [apiUrl] of the configuration, or nothing when the fetch or the parse
    fails. *)
Definition init (config : option (list ascii)) (app : ChatApp) : ChatApp :=
  match config with
  | Some configApiUrl =>
      enable (setApiUrl (JS.String (configApiUrl ++ JS.str "kb")) app)
  | None =>
      addMessage
        (JS.str "Error loading configuration. Please refresh the page.")
        bot app
  end.

Definition apology : list ascii :=
  JS.str "Sorry, I encountered an error. Please try again.".

(** [sendMessage] up to the point where it awaits [fetch]: [None] when it
    returns at once, otherwise the state in which it waits and the request
    it has issued. *)
Definition sendMessage_submit (app : ChatApp) : option (ChatApp * Request) :=
  let message := JS.trim (messageInput_value app) in
  match message with
  | [] => None
  | _ :: _ =>
      let app := addMessage message user app in
      let app := setValue [] app in
      let app := setLoading true app in
      let sessionId := sessionId app in
      Some (app,
            {| url := apiUrl app;
               method := JS.str "POST";
               contentType := JS.str "application/json";
               body := JS.stringify
                         [(JS.str "prompt", JS.String message);
                          (JS.str "sessionId", sessionId)] |})
  end.

(** The rest of the [try] block, once the awaited result is there. *)
Definition sendMessage_try (app : ChatApp) (result : FetchResult)
    : Completion :=
  match result with
  | Rejected => Throw app
  | Response status json =>
      if negb (ok status) then Throw app
      else match json with
           | None => Throw app
           | Some data =>
               let app := setSessionId (Data.sessionId data) app in
               addMessageWithCitations (Data.response data)
                                       (Data.citations data) app
           end
  end.

(** [catch] and [finally]. *)
Definition sendMessage_resume (app : ChatApp) (result : FetchResult)
    : ChatApp :=
  let app :=
    match sendMessage_try app result with
    | Normal app => app
    | Throw app => addMessage apology bot app
    end in
  setLoading false app.

(** One call of [sendMessage] against a network that answers with [fetch]:
    the state when the call has settled, and the requests it issued. *)
Definition sendMessage (fetch : Request -> FetchResult) (app : ChatApp)
    : ChatApp * list Request :=
  match sendMessage_submit app with
  | None => (app, [])
  | Some (waiting, request) =>
      (sendMessage_resume waiting (fetch request), [request])
  end.

(** A session: in each turn the user types a text and submits it, and the
    network answers the request, if one is issued, with the given
    result. *)
Fixpoint session (app : ChatApp) (turns : list (list ascii * FetchResult))
    : ChatApp * list Request :=
  match turns with
  | [] => (app, [])
  | (text, result) :: rest =>
      let (app, requests) :=
        sendMessage (fun _ => result) (setValue text app) in
      let (app, later) := session app rest in
      (app, requests ++ later)
  end.

(** The client is interactive: both controls are enabled and the spinner
    is hidden. *)
Definition idle (app : ChatApp) : Prop :=
  messageInput_disabled app = false /\ sendButton_disabled app = false
  /\ loading_display app = none.

(** The client waits for a response. *)
Definition awaiting (app : ChatApp) : Prop :=
  messageInput_disabled app = true /\ sendButton_disabled app = true
  /\ loading_display app = flex.

(** A turn whose round trip succeeds: the prompt is not blank and the
    response has a status in 200..299 and a body that parses. *)
Definition successful (turn : list ascii * FetchResult) : Prop :=
  JS.trim (fst turn) <> []
  /\ exists status data,
       snd turn = Response status (Some data) /\ ok status = true.

(** A round trip that fails: the transport fails, the status is not in
    200..299, or the body does not parse. *)
Definition failed (result : FetchResult) : Prop :=
  match result with
  | Rejected => True
  | Response status json => ok status = false \/ json = None
  end.

(** A turn whose response, if a body arrives with it, carries a
    [sessionId]. *)
Definition definesSession (turn : list ascii * FetchResult) : Prop :=
  match snd turn with
  | Response _ (Some data) => Data.sessionId data <> JS.undefined
  | _ => True
  end.

(** The body of a request with the given prompt and the given text for
    the value of [sessionId]. *)
Definition bodyWith (message value : list ascii) : list ascii :=
  JS.str "{" ++ JS.quote (JS.str "prompt") ++ JS.str ":" ++ JS.quote message
    ++ JS.str "," ++ JS.quote (JS.str "sessionId") ++ JS.str ":" ++ value
    ++ JS.str "}".

End Client.


(** ** The rest of the script *)

(** The page with its listeners: [init] registers them, through
    [setupEventListeners], only once the configuration has loaded. *)
Module Page.

Record t : Type := {
  app : Client.ChatApp;
  clickListener : bool;
  keypressListener : bool
}.

(** The page when the constructor has run and [init] has not. *)
Definition loaded (app : Client.ChatApp) : t :=
  {| app := app; clickListener := false; keypressListener := false |}.

Definition withApp (app : Client.ChatApp) (page : t) : t :=
  {| app := app;
     clickListener := clickListener page;
     keypressListener := keypressListener page |}.

Definition setupEventListeners (page : t) : t :=
  {| app := app page; clickListener := true; keypressListener := true |}.

(** [init] as a whole: the [try] block ends with [setupEventListeners],
    the [catch] block only adds its message. *)
Definition init (config : option (list ascii)) (page : t) : t :=
  match config with
  | Some _ => setupEventListeners (withApp (Client.init config (app page)) page)
  | None => withApp (Client.init config (app page)) page
  end.

(** The two events the script listens to. *)
Inductive Event : Type :=
| click
| keypress (key : list ascii) (shiftKey : bool).

(** What an event does: the page afterwards, the requests issued, and
    whether the listener called [preventDefault]. *)
Definition dispatch (fetch : Client.Request -> Client.FetchResult)
    (e : Event) (page : t) : t * list Client.Request * bool :=
  match e with
  | click =>
      if clickListener page then
        let (app, requests) := Client.sendMessage fetch (app page) in
        (withApp app page, requests, false)
      else (page, [], false)
  | keypress key shiftKey =>
      if keypressListener page then
        if list_eq_dec ascii_dec key (JS.str "Enter") then
          if negb shiftKey then
            let (app, requests) := Client.sendMessage fetch (app page) in
            (withApp app page, requests, true)
          else (page, [], false)
        else (page, [], false)
      else (page, [], false)
  end.

(** A run of events, the user typing a text before each. *)
Fixpoint run (fetch : Client.Request -> Client.FetchResult)
    (events : list (list ascii * Event)) (page : t)
    : t * list Client.Request :=
  match events with
  | [] => (page, [])
  | (text, e) :: rest =>
      let '(page, requests, _) :=
        dispatch fetch e (withApp (Client.setValue text (app page)) page) in
      let (page, later) := run fetch rest page in
      (page, requests ++ later)
  end.

End Page.

(** The earlier revision of [sendMessage]: no session, no citations. *)
Module ClientV1.

Import Client.

Definition sendMessage_submit (app : ChatApp) : option (ChatApp * Request) :=
  let message := JS.trim (messageInput_value app) in
  match message with
  | [] => None
  | _ :: _ =>
      let app := addMessage message user app in
      let app := setValue [] app in
      let app := setLoading true app in
      Some (app,
            {| url := apiUrl app;
               method := JS.str "POST";
               contentType := JS.str "application/json";
               body := JS.stringify
                         [(JS.str "prompt", JS.String message)] |})
  end.

Definition sendMessage_try (app : ChatApp) (result : FetchResult)
    : Completion :=
  match result with
  | Rejected => Throw app
  | Response status json =>
      if negb (ok status) then Throw app
      else match json with
           | None => Throw app
           | Some data => Normal (addMessage (Data.response data) bot app)
           end
  end.

Definition sendMessage_resume (app : ChatApp) (result : FetchResult)
    : ChatApp :=
  let app :=
    match sendMessage_try app result with
    | Normal app => app
    | Throw app => addMessage apology bot app
    end in
  setLoading false app.

Definition sendMessage (fetch : Request -> FetchResult) (app : ChatApp)
    : ChatApp * list Request :=
  match sendMessage_submit app with
  | None => (app, [])
  | Some (waiting, request) =>
      (sendMessage_resume waiting (fetch request), [request])
  end.

Fixpoint session (app : ChatApp) (turns : list (list ascii * FetchResult))
    : ChatApp * list Request :=
  match turns with
  | [] => (app, [])
  | (text, result) :: rest =>
      let (app, requests) :=
        sendMessage (fun _ => result) (setValue text app) in
      let (app, later) := session app rest in
      (app, requests ++ later)
  end.

End ClientV1.

(** ** Vocabulary of the further properties *)

(** A turn that leaves the identifier of the session alone: nothing is
    sent, or the round trip fails. *)
Definition keepsSession (turn : list ascii * Client.FetchResult) : Prop :=
  JS.trim (fst turn) = [] \/ Client.failed (snd turn).

(** A response without citations to render. *)
Definition withoutCitations (turn : list ascii * Client.FetchResult)
    : Prop :=
  match snd turn with
  | Client.Response _ (Some data) =>
      Data.citations data = None \/ Data.citations data = Some []
  | _ => True
  end.

(** An event on which a listener calls [sendMessage]: a click, or the
    Enter key without Shift. *)
Definition submits (e : Page.Event) : bool :=
  match e with
  | Page.click => true
  | Page.keypress key shiftKey =>
      if list_eq_dec ascii_dec key (JS.str "Enter") then negb shiftKey
      else false
  end.

(** Two pages that differ at most in the text of the input. *)
Definition sameButInput (p q : Page.t) : Prop :=
  Page.clickListener p = Page.clickListener q
  /\ Page.keypressListener p = Page.keypressListener q
  /\ forall text,
       Client.setValue text (Page.app p) = Client.setValue text (Page.app q).

(** Two clients that differ at most in the identifier of the session. *)
Definition sameButSession (a b : Client.ChatApp) : Prop :=
  Client.setSessionId JS.null a = Client.setSessionId JS.null b.

(** The request of the earlier revision next to the one of the later: the
    same target and the same prompt, the later with an identifier. *)
Definition sameButIdentifier (r1 r2 : Client.Request) : Prop :=
  Client.url r1 = Client.url r2
  /\ Client.method r1 = Client.method r2
  /\ Client.contentType r1 = Client.contentType r2
  /\ exists message id,
       Client.body r1 = JS.stringify [(JS.str "prompt", JS.String message)]
       /\ Client.body r2
          = JS.stringify [(JS.str "prompt", JS.String message);
                          (JS.str "sessionId", id)].

(** A message set through [textContent]. *)
Definition isText (m : Client.Message) : Prop :=
  exists text, Client.contentDiv m = TextContent text.

(** Reading a body back, to tell bodies apart: the value of a hexadecimal
    digit, a quoted string up to its closing quote, and the two properties
    of the body. *)
Definition hexValue (c : ascii) : nat :=
  let n := nat_of_ascii c in
  if (n <? 58)%nat then (n - 48)%nat else (n - 87)%nat.

Fixpoint readString (s : list ascii) : option (list ascii * list ascii) :=
  match s with
  | [] => None
  | c :: rest =>
      if Ascii.eqb c JS.dq then Some ([], rest)
      else if Ascii.eqb c "\" then
        match rest with
        | [] => None
        | e :: rest' =>
            if Ascii.eqb e "u" then
              match rest' with
              | _ :: _ :: h :: l :: rest'' =>
                  match readString rest'' with
                  | Some (text, after) =>
                      Some (ascii_of_nat (16 * hexValue h + hexValue l)
                              :: text, after)
                  | None => None
                  end
              | _ => None
              end
            else
              let decoded :=
                if Ascii.eqb e "b" then "008"%char
                else if Ascii.eqb e "t" then "009"%char
                else if Ascii.eqb e "n" then "010"%char
                else if Ascii.eqb e "f" then "012"%char
                else if Ascii.eqb e "r" then "013"%char
                else e in
              match readString rest' with
              | Some (text, after) => Some (decoded :: text, after)
              | None => None
              end
        end
      else
        match readString rest with
        | Some (text, after) => Some (c :: text, after)
        | None => None
        end
  end.

Fixpoint dropPrefix (prefix s : list ascii) : option (list ascii) :=
  match prefix, s with
  | [], _ => Some s
  | p :: prefix, c :: s => if Ascii.eqb p c then dropPrefix prefix s else None
  | _ :: _, [] => None
  end.

Definition readBody (s : list ascii) : option (list ascii * JS.Value) :=
  match dropPrefix (JS.str "{" ++ JS.quote (JS.str "prompt") ++ JS.str ":"
                      ++ [JS.dq]) s with
  | None => None
  | Some s =>
      match readString s with
      | None => None
      | Some (message, s) =>
          match dropPrefix (JS.str "," ++ JS.quote (JS.str "sessionId")
                              ++ JS.str ":") s with
          | None => Some (message, JS.undefined)
          | Some s =>
              match s with
              | c :: s' =>
                  if Ascii.eqb c JS.dq then
                    match readString s' with
                    | Some (id, _) => Some (message, JS.String id)
                    | None => None
                    end
                  else Some (message, JS.null)
              | [] => None
              end
          end
      end
  end.

(** Further sample inputs. *)
Module More.

Definition configured : Page.t :=
  Page.init (Some (JS.str "https://api.example/"))
    (Page.loaded (Client.constructor [] true true Client.none [])).

Definition unconfigured : Page.t :=
  Page.init None
    (Page.loaded (Client.constructor [] true true Client.none [])).

Definition plainReply : Data.t :=
  {| Data.response := JS.str "About two million.";
     Data.citations := Some [];
     Data.sessionId := JS.String (JS.str "s-2") |}.

Definition flat : Citation :=
  {| source := JS.str "notes.txt";
     content := JS.str "A note.";
     span := None |}.

Definition nested : Citation :=
  {| source := JS.str "kb/geo/europe/france.md";
     content := JS.str "Paris";
     span := None |}.

End More.

(** ** Sample inputs *)

Module Sample.

Definition cite (src excerpt : string) (sp : option Span) : Citation :=
  {| source := JS.str src; content := JS.str excerpt; span := sp |}.

Definition between (a b : Z) : option Span :=
  Some {| start := a; end_ := b |}.

(** The scenario of the specification. *)
Definition paris : list ascii := JS.str "Paris is the capital.".
Definition geo : Citation :=
  cite "docs/geo.txt" "Paris is France's capital city." (between 0 5).

(** Two disjoint spans on a text of twenty code units. *)
Definition twenty : list ascii := JS.str "abcdefghijklmnopqrst".
Definition low : Citation := cite "docs/low.txt" "first" (between 2 5).
Definition high : Citation := cite "docs/high.txt" "second" (between 10 14).
Definition bare : Citation := cite "docs/bare.txt" "third" None.

(** A span that ends far behind a text of six code units, after a span
    inside the text. *)
Definition six : list ascii := JS.str "abcdef".
Definition tail : Citation := cite "docs/tail.txt" "fourth" (between 4 6).
Definition beyond : Citation := cite "docs/beyond.txt" "fifth" (between 0 50).

(** Two spans that start at the same code unit. *)
Definition shortHead : Citation :=
  cite "docs/short.txt" "seventh" (between 0 3).
Definition longHead : Citation :=
  cite "docs/long.txt" "eighth" (between 0 5).

(** Two turns that succeed. *)
Definition firstReply : Data.t :=
  {| Data.response := JS.str "Paris is the capital.";
     Data.citations := Some [arrived geo];
     Data.sessionId := JS.String (JS.str "abc123") |}.

Definition secondReply : Data.t :=
  {| Data.response := JS.str "About two million.";
     Data.citations := None;
     Data.sessionId := JS.String (JS.str "abc123") |}.

(** A body without the property [sessionId], and one whose citation
    has no [source]. *)
Definition anonymousReply : Data.t :=
  {| Data.response := JS.str "Paris.";
     Data.citations := None;
     Data.sessionId := JS.undefined |}.

Definition sourcelessReply : Data.t :=
  {| Data.response := JS.str "Paris is the capital.";
     Data.citations :=
       Some [{| Data.source := JS.undefined;
                Data.content := JS.String (JS.str "Paris is France's capital city.");
                Data.span := between 0 5 |}];
     Data.sessionId := JS.String (JS.str "xyz789") |}.

(** An answer that holds a tag of its own, and an excerpt that holds a
    closing tag. *)
Definition angled : list ascii := JS.str "a<b>c".
Definition leaking : Citation :=
  cite "docs/geo.txt" "see </span>here" (between 0 5).


Definition idleApp (value : string) : Client.ChatApp :=
  Client.init (Some (JS.str "https://api.example/"))
    (Client.constructor (JS.str value) true true Client.none []).

End Sample.

(** * Properties *)

(** ** Substrings *)

Section SubstringFacts.

Context {A : Type}.
Implicit Types s : list A.

Lemma clamp_in_range (len : nat) (i : Z) :
  0 <= i <= Z.of_nat len -> JS.clamp len i = Z.to_nat i.
Proof. intros H. unfold JS.clamp. f_equal. lia. Qed.

Lemma substring_prefix s (b : Z) :
  0 <= b <= Z.of_nat (length s) ->
  JS.substring s 0 b = firstn (Z.to_nat b) s.
Proof.
  intros H. unfold JS.substring.
  rewrite (clamp_in_range _ 0), (clamp_in_range _ b) by lia.
  change (Z.to_nat 0) with 0%nat.
  rewrite Nat.min_0_l, Nat.max_0_l, Nat.sub_0_r. reflexivity.
Qed.

Lemma substring_middle s (a b : Z) :
  0 <= a <= b -> b <= Z.of_nat (length s) ->
  JS.substring s a b
  = firstn (Z.to_nat b - Z.to_nat a) (skipn (Z.to_nat a) s).
Proof.
  intros Hab Hb. unfold JS.substring.
  rewrite (clamp_in_range _ a), (clamp_in_range _ b) by lia.
  rewrite Nat.min_l, Nat.max_r by lia. reflexivity.
Qed.

Lemma substring_from_suffix s (b : Z) :
  0 <= b <= Z.of_nat (length s) ->
  JS.substring_from s b = skipn (Z.to_nat b) s.
Proof.
  intros H. unfold JS.substring_from. now rewrite clamp_in_range.
Qed.

(** The three pieces the loop body cuts are the string itself. *)
Lemma substring_partition s (a b : Z) :
  0 <= a <= b -> b <= Z.of_nat (length s) ->
  JS.substring s 0 a ++ JS.substring s a b ++ JS.substring_from s b = s.
Proof.
  intros Hab Hb.
  rewrite substring_prefix, substring_middle, substring_from_suffix by lia.
  replace (skipn (Z.to_nat b) s)
    with (skipn (Z.to_nat b - Z.to_nat a) (skipn (Z.to_nat a) s)).
  - now rewrite firstn_skipn, firstn_skipn.
  - rewrite skipn_skipn. f_equal. lia.
Qed.

End SubstringFacts.

(** ** The loop body *)

Section SpliceFacts.

Context {A : Type} (lit : ascii -> A).

(** The test of the loop body is the validity of the span for the string
    being spliced. *)
Lemma wraps_validSpan (p : list A) (citation : Citation) :
  wraps p citation = validSpan (length p) citation.
Proof.
  unfold wraps, validSpan, inBounds.
  destruct (span citation) as [sp|]; [|reflexivity].
  now rewrite Z.geb_leb, Z.gtb_ltb.
Qed.

Lemma splice_cases (p : list A) (citation : Citation) (index : nat) :
  splice lit p citation index
  = if validSpan (length p) citation then
      match span citation with
      | Some sp =>
          JS.substring p 0 (start sp)
            ++ map lit (markerOpen index)
            ++ JS.substring p (start sp) (end_ sp)
            ++ map lit (markerClose citation)
            ++ JS.substring_from p (end_ sp)
      | None => p
      end
    else p.
Proof.
  unfold splice. rewrite <- wraps_validSpan. unfold wraps.
  now destruct (span citation).
Qed.

Lemma validSpan_bounds (len : nat) (citation : Citation) :
  validSpan len citation = true ->
  exists sp, span citation = Some sp
             /\ 0 <= start sp < end_ sp /\ end_ sp <= Z.of_nat len.
Proof.
  unfold validSpan. destruct (span citation) as [sp|]; [|discriminate].
  intros H. exists sp. split; [reflexivity|].
  apply andb_prop in H as [H H3]. apply andb_prop in H as [H1 H2]. lia.
Qed.

Lemma validSpan_mono (len len' : nat) (citation : Citation) :
  (len <= len')%nat ->
  validSpan len citation = true -> validSpan len' citation = true.
Proof.
  unfold validSpan. destruct (span citation) as [sp|]; [|discriminate].
  intros Hle H.
  apply andb_prop in H as [H H3]. apply andb_prop in H as [H1 H2].
  rewrite H1, H2. simpl. apply Z.leb_le. apply Z.leb_le in H3. lia.
Qed.

(** A splice never shortens the string. *)
Lemma splice_length (p : list A) (citation : Citation) (index : nat) :
  (length p <= length (splice lit p citation index))%nat.
Proof.
  rewrite splice_cases.
  destruct (validSpan (length p) citation) eqn:Hv; [|lia].
  destruct (validSpan_bounds _ _ Hv) as (sp & -> & H1 & H2).
  rewrite <- (substring_partition p (start sp) (end_ sp)) at 1 by lia.
  rewrite !length_app. lia.
Qed.

End SpliceFacts.

(** ** The loop *)

Section LoopFacts.

Context {S T : Type} (f : S -> T -> nat -> S).

Lemma forEach_from_app (l1 l2 : list T) (index : nat) (acc : S) :
  JS.forEach_from f (l1 ++ l2) index acc
  = JS.forEach_from f l2 (index + length l1)
      (JS.forEach_from f l1 index acc).
Proof.
  revert index acc. induction l1 as [|x l1 IH]; intros index acc; simpl.
  - now rewrite Nat.add_0_r.
  - rewrite IH. f_equal. lia.
Qed.

(** An invariant of the state that every call of the callback keeps holds
    when the loop ends. *)
Lemma forEach_from_invariant (P : S -> Prop) (l : list T) :
  (forall acc x index, P acc -> P (f acc x index)) ->
  forall index acc, P acc -> P (JS.forEach_from f l index acc).
Proof.
  intros Hstep. induction l as [|x l IH]; intros index acc Hacc; simpl.
  - exact Hacc.
  - apply IH, Hstep, Hacc.
Qed.

(** The loop up to index [i], followed by the call at index [i]. *)
Lemma forEach_firstn_succ (l : list T) (i : nat) (x : T) (acc : S) :
  nth_error l i = Some x ->
  JS.forEach f (firstn (Datatypes.S i) l) acc
  = f (JS.forEach f (firstn i l) acc) x i.
Proof.
  intros Hx. unfold JS.forEach.
  assert (Hlen : (i < length l)%nat)
    by (apply nth_error_Some; congruence).
  destruct (nth_error_split l i Hx) as (l1 & l2 & -> & Hl1).
  rewrite <- Hl1.
  replace (Datatypes.S (length l1)) with (length (l1 ++ [x]))
    by (rewrite length_app; simpl; lia).
  replace (l1 ++ x :: l2) with ((l1 ++ [x]) ++ l2)
    by (now rewrite <- app_assoc).
  rewrite firstn_app, firstn_all, Nat.sub_diag, app_nil_r.
  rewrite <- app_assoc. simpl.
  rewrite firstn_app, firstn_all, Nat.sub_diag, app_nil_r.
  rewrite forEach_from_app. simpl. reflexivity.
Qed.

Lemma forEach_firstn_all (l : list T) (acc : S) :
  JS.forEach f (firstn (length l) l) acc = JS.forEach f l acc.
Proof. now rewrite firstn_all. Qed.

End LoopFacts.

(** ** Stripping and erasing *)

Lemma strip_app (l1 l2 : list CodeUnit) :
  strip (l1 ++ l2) = strip l1 ++ strip l2.
Proof.
  induction l1 as [|[c|c] l1 IH]; simpl; [reflexivity| |exact IH].
  now rewrite IH.
Qed.

Lemma strip_inserted (l : list ascii) : strip (map Inserted l) = [].
Proof. induction l; simpl; auto. Qed.

Lemma strip_answer (text : list ascii) : strip (answer text) = text.
Proof. induction text; simpl; [reflexivity|]. now f_equal. Qed.

Lemma erase_answer (text : list ascii) : map erase (answer text) = text.
Proof.
  unfold answer. rewrite map_map. simpl. apply map_id.
Qed.

(** One splice leaves the code units of the answer as they are. *)
Lemma strip_splice (p : list CodeUnit) (citation : Citation) (index : nat) :
  strip (splice Inserted p citation index) = strip p.
Proof.
  rewrite splice_cases.
  destruct (validSpan (length p) citation) eqn:Hv; [|reflexivity].
  destruct (validSpan_bounds _ _ Hv) as (sp & -> & H1 & H2).
  rewrite !strip_app, !strip_inserted. simpl.
  rewrite <- !strip_app. f_equal.
  apply substring_partition; lia.
Qed.

Section Erasure.

Context {A B : Type} (litA : ascii -> A) (litB : ascii -> B) (f : A -> B).
Hypothesis lit_commutes : forall c, f (litA c) = litB c.

Lemma substring_map (s : list A) (a b : Z) :
  map f (JS.substring s a b) = JS.substring (map f s) a b.
Proof.
  unfold JS.substring. now rewrite length_map, skipn_map, firstn_map.
Qed.

Lemma substring_from_map (s : list A) (a : Z) :
  map f (JS.substring_from s a) = JS.substring_from (map f s) a.
Proof.
  unfold JS.substring_from. now rewrite length_map, skipn_map.
Qed.

Lemma splice_map (p : list A) (citation : Citation) (index : nat) :
  map f (splice litA p citation index)
  = splice litB (map f p) citation index.
Proof.
  unfold splice. destruct (span citation) as [sp|]; [|reflexivity].
  replace (inBounds (map f p) sp) with (inBounds p sp)
    by (unfold inBounds; now rewrite length_map).
  destruct (inBounds p sp); [|reflexivity].
  rewrite !map_app, !map_map, substring_map, substring_map,
    substring_from_map.
  rewrite (map_ext _ _ lit_commutes (markerOpen index)).
  rewrite (map_ext _ _ lit_commutes (markerClose citation)).
  reflexivity.
Qed.

Lemma forEach_splice_map (l : list Citation) (index : nat) (p : list A) :
  map f (JS.forEach_from (splice litA) l index p)
  = JS.forEach_from (splice litB) l index (map f p).
Proof.
  revert index p. induction l as [|c l IH]; intros index p; simpl.
  - reflexivity.
  - now rewrite IH, splice_map.
Qed.

End Erasure.

(** Forgetting where the code units come from gives the string the
    browser computes. *)
Lemma erase_highlightTracked (text : list ascii) (citations : list Citation) :
  map erase (highlightTracked text citations) = highlight text citations.
Proof.
  unfold highlightTracked, highlight, processedContent, JS.forEach.
  rewrite (forEach_splice_map Inserted (fun c => c) erase)
    by reflexivity.
  now rewrite erase_answer.
Qed.

Lemma strip_highlightTracked (text : list ascii) (citations : list Citation) :
  strip (highlightTracked text citations) = text.
Proof.
  unfold highlightTracked, processedContent, JS.forEach.
  apply (forEach_from_invariant (splice Inserted)
           (fun p => strip p = text)).
  - intros acc x index Hacc. now rewrite strip_splice.
  - apply strip_answer.
Qed.

(** ** The footer *)





(** ** The sort *)

Section SortFacts.

Context {T : Type} (cmp : T -> T -> Z).

(** The sort leaves a locally sorted array as it is. *)
Lemma sort_unchanged (l : list T) :
  JS.locallySorted cmp l -> JS.sort cmp l = l.
Proof.
  induction l as [|x [|y l] IH]; intros H; simpl in *.
  - reflexivity.
  - reflexivity.
  - destruct H as [Hxy H]. specialize (IH H). simpl in IH. rewrite IH.
    simpl. apply Z.leb_le in Hxy. now rewrite Hxy.
Qed.

Lemma insert_permutation (x : T) (l : list T) :
  Permutation (x :: l) (JS.insert cmp x l).
Proof.
  induction l as [|y l IH]; simpl.
  - apply Permutation_refl.
  - destruct (cmp x y <=? 0).
    + apply Permutation_refl.
    + eapply perm_trans; [apply perm_swap|]. now apply perm_skip.
Qed.

(** The sorted array holds the elements of the array. *)
Lemma sort_permutation (l : list T) : Permutation l (JS.sort cmp l).
Proof.
  induction l as [|x l IH]; simpl.
  - apply perm_nil.
  - eapply perm_trans; [apply perm_skip, IH|]. apply insert_permutation.
Qed.

Lemma sort_length (l : list T) : length (JS.sort cmp l) = length l.
Proof. symmetry. apply Permutation_length, sort_permutation. Qed.

End SortFacts.

(** ** The string at each step of the loop *)

Section Steps.

Context {A : Type} (lit : ascii -> A).

Lemma processedBefore_succ (content : list A) (citations : list Citation)
    (i : nat) (citation : Citation) :
  nth_error (sortedCitations citations) i = Some citation ->
  processedBefore lit content citations (S i)
  = splice lit (processedBefore lit content citations i) citation i.
Proof. apply forEach_firstn_succ. Qed.

Lemma processedBefore_all (content : list A) (citations : list Citation) :
  processedBefore lit content citations (length (sortedCitations citations))
  = processedContent lit content citations.
Proof. apply forEach_firstn_all. Qed.

(** The string being spliced is never shorter than the answer. *)
Lemma processedBefore_length (content : list A) (citations : list Citation)
    (i : nat) :
  (length content <= length (processedBefore lit content citations i))%nat.
Proof.
  unfold processedBefore, JS.forEach.
  apply (forEach_from_invariant (splice lit)
           (fun p => (length content <= length p)%nat)); [|lia].
  intros acc x index Hacc.
  pose proof (splice_length lit acc x index). lia.
Qed.

End Steps.

(** A citation whose span is valid for the answer is wrapped, wherever
    the sort has put it. *)
Lemma valid_span_is_wrapped (content : list ascii)
    (citations : list Citation) (i : nat) (citation : Citation) :
  nth_error (sortedCitations citations) i = Some citation ->
  validSpan (length content) citation = true ->
  wrappedInline content citations i = true.
Proof.
  intros Hi Hv. unfold wrappedInline. rewrite Hi, wraps_validSpan.
  eapply validSpan_mono; [|exact Hv]. apply processedBefore_length.
Qed.

(** An iteration that does not wrap leaves the string as it is. *)
Lemma not_wrapped_unchanged (content : list ascii)
    (citations : list Citation) (i : nat) (citation : Citation) :
  nth_error (sortedCitations citations) i = Some citation ->
  wrappedInline content citations i = false ->
  processedBefore (fun c => c) content citations (S i)
  = processedBefore (fun c => c) content citations i.
Proof.
  intros Hi Hw. unfold wrappedInline in Hw.
  rewrite Hi, wraps_validSpan in Hw.
  rewrite (processedBefore_succ _ _ _ _ _ Hi), splice_cases.
  now rewrite Hw.
Qed.

(** ** The claims on the highlighter *)





(** ** Descending starts keep the indices of the answer *)

Lemma forallb_permutation {T : Type} (f : T -> bool) (l l' : list T) :
  Permutation l l' -> forallb f l = true -> forallb f l' = true.
Proof.
  intros Hp H. apply forallb_forall. intros x Hx.
  apply (proj1 (forallb_forall f l) H).
  eapply Permutation_in; [apply Permutation_sym, Hp|exact Hx].
Qed.

Lemma allSpans_spanStarts (citations : list Citation) :
  allSpans citations = true ->
  spanStarts citations = map spanStart citations.
Proof.
  induction citations as [|c cs IH]; simpl; [reflexivity|].
  unfold spanStart at 1. destruct (span c) as [sp|]; [|discriminate].
  simpl. intros H. now rewrite IH.
Qed.

Lemma compareCitations_spans (a b : Citation) :
  span a <> None -> span b <> None ->
  compareCitations a b = spanStart b - spanStart a.
Proof.
  unfold compareCitations, spanStart.
  destruct (span a), (span b); congruence.
Qed.

Lemma allSpans_In (citations : list Citation) (c : Citation) :
  allSpans citations = true -> In c citations -> span c <> None.
Proof.
  intros H Hc. apply (proj1 (forallb_forall _ _) H) in Hc.
  destruct (span c); congruence.
Qed.

(** Insertion keeps the starts descending when every citation carries a
    span. *)
Lemma insert_descending (x : Citation) (l : list Citation) :
  allSpans (x :: l) = true ->
  StronglySorted (fun a b => spanStart a >= spanStart b) l ->
  StronglySorted (fun a b => spanStart a >= spanStart b)
    (JS.insert compareCitations x l).
Proof.
  intros Hall Hs. induction Hs as [|y l Hs IH Hy]; simpl.
  - repeat constructor.
  - assert (Hx : span x <> None)
      by (apply (allSpans_In _ _ Hall); now left).
    assert (Hy' : span y <> None)
      by (apply (allSpans_In _ _ Hall); right; now left).
    rewrite (compareCitations_spans _ _ Hx Hy').
    destruct (spanStart y - spanStart x <=? 0) eqn:Hcmp.
    + apply Z.leb_le in Hcmp. constructor.
      * now constructor.
      * constructor; [lia|].
        eapply Forall_impl; [|exact Hy]. simpl. intros z Hz. lia.
    + apply Z.leb_gt in Hcmp. constructor.
      * apply IH. simpl in Hall |- *.
        apply andb_prop in Hall as [H1 H2].
        apply andb_prop in H2 as [_ H2]. now rewrite H1, H2.
      * apply Forall_forall. intros z Hz.
        apply (Permutation_in _
                 (Permutation_sym (insert_permutation _ x l))) in Hz.
        destruct Hz as [<-|Hz]; [lia|].
        apply (proj1 (Forall_forall _ _) Hy z Hz).
Qed.

Lemma sortedCitations_descending (citations : list Citation) :
  allSpans citations = true ->
  StronglySorted (fun a b => spanStart a >= spanStart b)
    (sortedCitations citations).
Proof.
  unfold sortedCitations.
  induction citations as [|c cs IH]; intros Hall; simpl.
  - constructor.
  - apply insert_descending.
    + simpl in Hall |- *. apply andb_prop in Hall as [H1 H2].
      rewrite H1. simpl.
      eapply forallb_permutation; [apply sort_permutation|exact H2].
    + apply IH. simpl in Hall. now apply andb_prop in Hall as [_ H2].
Qed.

(** The sort is stable: citations whose spans start at the same code unit
    keep the order in which they were received.  With the two lemmas
    before, this fixes the sorted array of a list in which every citation
    carries a span. *)
Lemma insert_stable (k : Z) (x : Citation) (l : list Citation) :
  allSpans (x :: l) = true ->
  filter (fun c => spanStart c =? k) (JS.insert compareCitations x l)
  = filter (fun c => spanStart c =? k) (x :: l).
Proof.
  induction l as [|y l IH]; intros Hall; [reflexivity|].
  assert (Hx : span x <> None)
    by (apply (allSpans_In _ _ Hall); now left).
  assert (Hy : span y <> None)
    by (apply (allSpans_In _ _ Hall); right; now left).
  simpl JS.insert. rewrite (compareCitations_spans _ _ Hx Hy).
  destruct (spanStart y - spanStart x <=? 0) eqn:Hcmp; [reflexivity|].
  apply Z.leb_gt in Hcmp.
  assert (Hall' : allSpans (x :: l) = true).
  { simpl in Hall |- *. apply andb_prop in Hall as [H1 H2].
    apply andb_prop in H2 as [_ H2]. now rewrite H1, H2. }
  simpl. rewrite (IH Hall'). simpl.
  destruct (spanStart x =? k) eqn:Hxk, (spanStart y =? k) eqn:Hyk;
    try reflexivity.
  apply Z.eqb_eq in Hxk, Hyk. lia.
Qed.

Lemma sortedCitations_stable (k : Z) (citations : list Citation) :
  allSpans citations = true ->
  filter (fun c => spanStart c =? k) (sortedCitations citations)
  = filter (fun c => spanStart c =? k) citations.
Proof.
  unfold sortedCitations.
  induction citations as [|c cs IH]; intros Hall; [reflexivity|].
  simpl JS.sort. rewrite insert_stable.
  - simpl. simpl in Hall. apply andb_prop in Hall as [_ Hall].
    now rewrite (IH Hall).
  - simpl in Hall |- *. apply andb_prop in Hall as [H1 H2].
    rewrite H1. simpl.
    eapply forallb_permutation; [apply sort_permutation|exact H2].
Qed.

Lemma StronglySorted_map {T U : Type} (f : T -> U) (R : U -> U -> Prop)
    (l : list T) :
  StronglySorted (fun a b => R (f a) (f b)) l ->
  StronglySorted R (map f l).
Proof.
  induction 1 as [|x l Hs IH Hx]; simpl; constructor; [exact IH|].
  apply Forall_map. exact Hx.
Qed.

Lemma nonOverlapping_bounds (a b : Citation) :
  span a <> None -> span b <> None -> nonOverlapping a b = true ->
  spanEnd a <= spanStart b \/ spanEnd b <= spanStart a.
Proof.
  unfold nonOverlapping, spanEnd, spanStart, disjoint.
  destruct (span a), (span b); try congruence.
  intros _ _ H. apply orb_prop in H as [H|H]; apply Z.leb_le in H; auto.
Qed.

Lemma validSpan_proper (len : nat) (c : Citation) :
  validSpan len c = true -> proper len c.
Proof.
  intros H. destruct (validSpan_bounds _ _ H) as (sp & Hsp & H1 & H2).
  unfold proper, spanStart, spanEnd. rewrite Hsp.
  repeat split; try lia. congruence.
Qed.

Lemma proper_validSpan (len : nat) (c : Citation) :
  proper len c -> validSpan len c = true.
Proof.
  unfold proper, validSpan, spanStart, spanEnd.
  destruct (span c) as [sp|]; [|intros [H _]; congruence].
  intros (_ & H1 & H2).
  apply andb_true_intro; split; [apply andb_true_intro; split|].
  - apply Z.leb_le. lia.
  - apply Z.ltb_lt. lia.
  - apply Z.leb_le. lia.
Qed.

(** When every citation carries a valid span, every citation is proper. *)
Lemma all_proper (len : nat) (citations : list Citation) :
  allSpans citations = true -> spansValid len citations = true ->
  Forall (proper len) citations.
Proof.
  intros Hall Hvalid. apply Forall_forall. intros c Hc.
  pose proof (proj1 (forallb_forall _ _) Hall c Hc) as H1.
  pose proof (proj1 (forallb_forall _ _) Hvalid c Hc) as H2.
  simpl in H1, H2. apply validSpan_proper.
  destruct (span c) eqn:Hs; [|discriminate].
  unfold validSpan in *. now rewrite Hs in *.
Qed.

(** Insertion places a proper citation that overlaps none of a chained
    list so that the list stays chained. *)
Lemma insert_chained (len : nat) (x : Citation) (l : list Citation) :
  proper len x -> Forall (proper len) l ->
  forallb (nonOverlapping x) l = true ->
  chained l -> chained (JS.insert compareCitations x l).
Proof.
  intros Hx Hl Hno Hc. unfold chained in *.
  induction Hc as [|y l Hc IH Hy]; simpl.
  - repeat constructor.
  - inversion Hl as [|? ? Hpy Hl']; subst.
    simpl in Hno. apply andb_prop in Hno as [Hxy Hno].
    destruct Hx as (Hsx & Hbx & Hex). destruct Hpy as (Hsy & Hby & Hey).
    pose proof (nonOverlapping_bounds _ _ Hsx Hsy Hxy) as Hd.
    rewrite (compareCitations_spans _ _ Hsx Hsy).
    destruct (spanStart y - spanStart x <=? 0) eqn:Hcmp.
    + apply Z.leb_le in Hcmp. constructor.
      * now constructor.
      * constructor; [lia|].
        eapply Forall_impl; [|exact Hy]. simpl. intros z Hz. lia.
    + apply Z.leb_gt in Hcmp. constructor.
      * apply IH; assumption.
      * apply Forall_forall. intros z Hz.
        apply (Permutation_in _
                 (Permutation_sym (insert_permutation _ x l))) in Hz.
        destruct Hz as [<-|Hz]; [lia|].
        apply (proj1 (Forall_forall _ _) Hy z Hz).
Qed.

Lemma sortedCitations_chained (len : nat) (citations : list Citation) :
  allSpans citations = true -> spansValid len citations = true ->
  pairwiseNonOverlapping citations = true ->
  chained (sortedCitations citations).
Proof.
  intros Hall Hvalid Hno.
  pose proof (all_proper _ _ Hall Hvalid) as Hp. clear Hall Hvalid.
  unfold sortedCitations.
  induction citations as [|c cs IH]; simpl.
  - constructor.
  - inversion Hp as [|? ? Hc Hcs]; subst.
    simpl in Hno. apply andb_prop in Hno as [Hno1 Hno2].
    apply (insert_chained len).
    + exact Hc.
    + apply Forall_forall. intros z Hz.
      apply (proj1 (Forall_forall _ _) Hcs).
      eapply Permutation_in;
        [apply Permutation_sym, sort_permutation|exact Hz].
    + eapply forallb_permutation; [apply sort_permutation|exact Hno1].
    + apply IH; assumption.
Qed.

Section PrefixKept.

Context {A : Type} (lit : ascii -> A).

(** Two strings with the same first [b] code units have the same
    substrings below [b]. *)
Lemma substring_of_prefix (q r : list A) (a b : Z) :
  0 <= a <= b -> b <= Z.of_nat (length q) -> b <= Z.of_nat (length r) ->
  firstn (Z.to_nat b) q = firstn (Z.to_nat b) r ->
  JS.substring q a b = JS.substring r a b.
Proof.
  intros Hab Hq Hr Heq.
  rewrite !substring_middle by lia.
  rewrite <- !skipn_firstn_comm. now rewrite Heq.
Qed.

Lemma firstn_shorter (n m : nat) (q r : list A) :
  (n <= m)%nat -> firstn m q = firstn m r -> firstn n q = firstn n r.
Proof.
  intros Hnm H.
  replace n with (Nat.min n m) by lia.
  rewrite <- !firstn_firstn. now rewrite H.
Qed.

(** A splice leaves the code units in front of its span alone. *)
Lemma splice_prefix (p : list A) (x : Citation) (index n : nat) :
  validSpan (length p) x = true ->
  (n <= Z.to_nat (spanStart x))%nat ->
  firstn n (splice lit p x index) = firstn n p.
Proof.
  intros Hv Hn. rewrite splice_cases, Hv.
  destruct (validSpan_bounds _ _ Hv) as (sp & Hsp & H1 & H2).
  unfold spanStart in Hn. rewrite Hsp in *.
  rewrite substring_prefix by lia.
  rewrite firstn_app, firstn_firstn.
  rewrite length_firstn.
  replace (n - Nat.min (Z.to_nat (start sp)) (length p))%nat with 0%nat
    by lia.
  rewrite Nat.min_l by lia. simpl. apply app_nil_r.
Qed.

(** Along a chained list the loop keeps, for every citation it has not
    reached yet, the code units of the answer up to the end of its
    span. *)
Lemma forEach_prefix_kept (content : list A) (l : list Citation) :
  chained l -> Forall (proper (length content)) l ->
  forall (index : nat) (p : list A),
    (length content <= length p)%nat ->
    (forall c, In c l ->
               firstn (Z.to_nat (spanEnd c)) p
               = firstn (Z.to_nat (spanEnd c)) content) ->
    forall (k : nat) (c : Citation),
      nth_error l k = Some c ->
      firstn (Z.to_nat (spanEnd c))
        (JS.forEach_from (splice lit) (firstn k l) index p)
      = firstn (Z.to_nat (spanEnd c)) content.
Proof.
  intros Hc. unfold chained in Hc.
  induction Hc as [|x l Hc IH Hx]; intros Hp index p Hlen Hpre k c Hk.
  - destruct k; discriminate.
  - inversion Hp as [|? ? Hpx Hpl]; subst.
    destruct k as [|k]; simpl in *.
    + injection Hk as <-. apply Hpre. now left.
    + assert (Hvx : validSpan (length p) x = true).
      { eapply validSpan_mono; [exact Hlen|].
        now apply proper_validSpan. }
      apply IH; try assumption.
      * pose proof (splice_length lit p x index). lia.
      * intros z Hz. rewrite splice_prefix; [apply Hpre; now right|exact Hvx|].
        pose proof (proj1 (Forall_forall _ _) Hx z Hz) as Hzx.
        pose proof (proj1 (Forall_forall _ _) Hpl z Hz) as (_ & Hz1 & _).
        simpl in Hzx. lia.
Qed.

End PrefixKept.

Lemma chained_strict (len : nat) (l : list Citation) :
  chained l -> Forall (proper len) l ->
  StronglySorted Z.gt (map spanStart l).
Proof.
  intros Hc Hp. apply StronglySorted_map. unfold chained in Hc.
  induction Hc as [|x l Hc IH Hx]; constructor.
  - apply IH. now inversion Hp.
  - inversion Hp as [|? ? _ Hpl]; subst.
    apply Forall_forall. intros z Hz.
    pose proof (proj1 (Forall_forall _ _) Hx z Hz) as H1.
    pose proof (proj1 (Forall_forall _ _) Hpl z Hz) as (_ & H2 & _).
    simpl in H1. lia.
Qed.

(** C3, as the code has it.  When every citation of the list carries a
    span, the loop meets all of them, with the starts of their spans in
    descending order, those with the same start in the order in which they
    were received.  When moreover the spans are valid for the answer and
    pairwise non-overlapping, the order is strict, every citation is
    wrapped, and each iteration cuts its [before] and its [highlighted]
    piece out of code units that are still those of the answer: the splices
    made at higher offsets have not moved them. *)
Theorem spans_spliced_in_descending_order (content : list ascii)
    (citations : list Citation)
    (Hall : allSpans citations = true) :
  Permutation citations (sortedCitations citations)
  /\ StronglySorted Z.ge (spanStarts (sortedCitations citations))
  /\ (forall k : Z,
        filter (fun c => spanStart c =? k) (sortedCitations citations)
        = filter (fun c => spanStart c =? k) citations)
  /\ (spansValid (length content) citations = true ->
      pairwiseNonOverlapping citations = true ->
      strictlyDescending citations
      /\ forall (i : nat) (citation : Citation) (sp : Span),
           nth_error (sortedCitations citations) i = Some citation ->
           span citation = Some sp ->
           wrappedInline content citations i = true
           /\ JS.substring (processedBefore (fun c => c) content citations i)
                0 (start sp)
              = JS.substring content 0 (start sp)
           /\ JS.substring (processedBefore (fun c => c) content citations i)
                (start sp) (end_ sp)
              = JS.substring content (start sp) (end_ sp)).
Proof.
  assert (Hperm : Permutation citations (sortedCitations citations))
    by apply sort_permutation.
  assert (Hall' : allSpans (sortedCitations citations) = true)
    by (eapply forallb_permutation; [exact Hperm|exact Hall]).
  split; [exact Hperm|]. split; [|split].
  - rewrite (allSpans_spanStarts _ Hall').
    apply StronglySorted_map.
    eapply StronglySorted_ind
      with (P := StronglySorted (fun a b => spanStart a >= spanStart b));
      [constructor| |apply (sortedCitations_descending _ Hall)].
    intros a l _ IH Ha. now constructor.
  - intros k. now apply sortedCitations_stable.
  - intros Hvalid Hno.
    pose proof (sortedCitations_chained _ _ Hall Hvalid Hno) as Hchain.
    assert (Hproper : Forall (proper (length content))
                        (sortedCitations citations)).
    { apply Forall_forall. intros z Hz.
      apply (proj1 (Forall_forall _ _) (all_proper _ _ Hall Hvalid)).
      eapply Permutation_in; [apply Permutation_sym, Hperm|exact Hz]. }
    split.
    + unfold strictlyDescending. rewrite (allSpans_spanStarts _ Hall').
      apply (chained_strict _ _ Hchain Hproper).
    + intros i citation sp Hi Hsp.
      pose proof (proj1 (Forall_forall _ _) Hproper citation
                    (nth_error_In _ _ Hi)) as Hc.
      pose proof Hc as (_ & Hb & He).
      unfold spanStart, spanEnd in Hb, He. rewrite Hsp in Hb, He.
      pose proof (processedBefore_length (fun c => c) content citations i)
        as Hlen.
      assert (Hpre : firstn (Z.to_nat (end_ sp))
                       (processedBefore (fun c => c) content citations i)
                     = firstn (Z.to_nat (end_ sp)) content).
      { pose proof (forEach_prefix_kept (fun c => c) content
                      (sortedCitations citations) Hchain Hproper 0%nat
                      content (le_n _) (fun c _ => eq_refl) i citation Hi)
          as H.
        unfold spanEnd in H. rewrite Hsp in H. exact H. }
      split; [|split].
      * apply (valid_span_is_wrapped _ _ _ _ Hi).
        now apply proper_validSpan.
      * apply substring_of_prefix; try lia.
        apply (firstn_shorter _ (Z.to_nat (end_ sp))); [lia|exact Hpre].
      * apply substring_of_prefix; try lia. exact Hpre.
Qed.

Lemma spans_spliced_in_descending_order_witness :
  allSpans [Sample.low; Sample.high] = true
  /\ spanStarts (sortedCitations [Sample.low; Sample.high]) = [10; 2]
  /\ StronglySorted Z.ge
       (spanStarts (sortedCitations [Sample.low; Sample.high]))
  /\ JS.substring
       (processedBefore (fun c => c) Sample.twenty
          [Sample.low; Sample.high] 1)
       2 5
     = JS.str "cde".
Proof.
  pose proof (spans_spliced_in_descending_order Sample.twenty
                [Sample.low; Sample.high] eq_refl)
    as (_ & Hsorted & _ & H).
  destruct (H eq_refl eq_refl) as (_ & Hkept).
  destruct (Hkept 1%nat Sample.low {| start := 2; end_ := 5 |}
              eq_refl eq_refl) as (_ & _ & Hcut).
  split; [reflexivity|]. split; [reflexivity|]. split; [exact Hsorted|].
  exact Hcut.
Defined.

(** C3, as the claim states it, fails on the code.  Two spans that start
    at the same code unit are met one after the other, so the order of the
    starts is not strict.  And a citation without a span between two
    citations with spans makes the comparator answer 0 for both pairs of
    neighbours: the array is locally sorted, the sort leaves it as it is,
    the loop meets start 2 before start 10, and the second splice cuts its
    piece out of the markup of the first instead of out of the answer. *)
Lemma spans_not_strictly_descending :
  ~ strictlyDescending [Sample.shortHead; Sample.longHead]
  /\ wrappedInline Sample.twenty [Sample.shortHead; Sample.longHead] 0 = true
  /\ wrappedInline Sample.twenty [Sample.shortHead; Sample.longHead] 1 = true
  /\ ~ strictlyDescending [Sample.low; Sample.bare; Sample.high]
  /\ JS.locallySorted compareCitations [Sample.low; Sample.bare; Sample.high]
  /\ spanStarts (sortedCitations [Sample.low; Sample.bare; Sample.high])
     = [2; 10]
  /\ JS.substring
       (processedBefore (fun c => c) Sample.twenty
          [Sample.low; Sample.bare; Sample.high] 2)
       10 14
     = JS.str "ass="
  /\ JS.substring Sample.twenty 10 14 = JS.str "klmn".
Proof.
  split; [|split; [|split; [|split; [|split; [|split; [|split]]]]]].
  - unfold strictlyDescending. intros H.
    change (StronglySorted Z.gt [0; 0]) in H.
    inversion H as [|? ? _ Hall]; subst.
    inversion Hall; subst. lia.
  - reflexivity.
  - reflexivity.
  - unfold strictlyDescending. intros H.
    change (StronglySorted Z.gt [2; 10]) in H.
    inversion H as [|? ? _ Hall]; subst.
    inversion Hall; subst. lia.
  - simpl. unfold compareCitations. simpl. lia.
  - reflexivity.
  - reflexivity.
  - reflexivity.
Qed.

(** C2 fails on the code at a span that ends behind the answer.  The test
    of the loop body measures the string being spliced, which the splices
    made before have lengthened, not the answer: a citation is wrapped
    exactly when its span is valid for that string.  So every span that is
    valid for the answer is wrapped, but after the span 4..6 of a text of
    six code units has been wrapped, the span 0..50, which is not valid for
    the text, passes the test and is wrapped around markup. *)
Theorem span_beyond_answer_is_wrapped :
  (forall (content : list ascii) (citations : list Citation) (i : nat)
          (citation : Citation),
      nth_error (sortedCitations citations) i = Some citation ->
      wrappedInline content citations i
      = validSpan
          (length (processedBefore (fun c => c) content citations i))
          citation
      /\ (validSpan (length content) citation = true ->
          wrappedInline content citations i = true))
  /\ sortedCitations [Sample.tail; Sample.beyond]
     = [Sample.tail; Sample.beyond]
  /\ validSpan (length Sample.six) Sample.beyond = false
  /\ wrappedInline Sample.six [Sample.tail; Sample.beyond] 1 = true
  /\ highlight Sample.six [Sample.tail; Sample.beyond]
     = markerOpen 1
         ++ JS.substring (highlight Sample.six [Sample.tail]) 0 50
         ++ markerClose Sample.beyond
         ++ JS.substring_from (highlight Sample.six [Sample.tail]) 50.
Proof.
  split.
  - intros content citations i citation Hi. split.
    + unfold wrappedInline. rewrite Hi. apply wraps_validSpan.
    + now apply valid_span_is_wrapped.
  - repeat split.
Qed.

(** C9.  When the iteration at index [i] of the sorted array wraps its
    citation, the marker it writes carries [i]: the string after the
    iteration is the piece before the span, the opening tag with
    [data-citation-id] set to the decimal text of [i], the piece of the
    span, the tooltip and the closing tags, and the piece after the span.
    That index is not the place of the citation in the list as received:
    for the spans 2..5 and 10..14, in this order, the second citation is at
    index 0 of the sorted array and its marker carries 0, while the footer
    lists it as [[2]]; the first is marked 1 and listed as [[1]]. *)
Theorem marker_index_is_sorted_position :
  (forall (content : list ascii) (citations : list Citation) (i : nat)
          (citation : Citation) (sp : Span),
      nth_error (sortedCitations citations) i = Some citation ->
      span citation = Some sp ->
      wrappedInline content citations i = true ->
      processedBefore (fun c => c) content citations (S i)
      = JS.substring (processedBefore (fun c => c) content citations i)
          0 (start sp)
        ++ (JS.str "<span class=" ++ [JS.dq] ++ JS.str "highlighted-text"
              ++ [JS.dq] ++ JS.str " data-citation-id=" ++ [JS.dq]
              ++ JS.toString i ++ [JS.dq] ++ JS.str ">")
        ++ JS.substring (processedBefore (fun c => c) content citations i)
             (start sp) (end_ sp)
        ++ markerClose citation
        ++ JS.substring_from
             (processedBefore (fun c => c) content citations i) (end_ sp))
  /\ (nth_error [Sample.low; Sample.high] 1 = Some Sample.high
      /\ nth_error (sortedCitations [Sample.low; Sample.high]) 0
         = Some Sample.high
      /\ highlight Sample.twenty [Sample.low; Sample.high]
         = JS.str "ab" ++ markerOpen 1 ++ JS.str "cde"
             ++ markerClose Sample.low ++ JS.str "fghij"
             ++ markerOpen 0 ++ JS.str "klmn"
             ++ markerClose Sample.high ++ JS.str "opqrst"
      /\ citationsContainer [Sample.low; Sample.high]
         = footerHeader ++ JS.str "[1] low.txt<br>[2] high.txt<br>").
Proof.
  split.
  - intros content citations i citation sp Hi Hsp Hw.
    rewrite (processedBefore_succ _ _ _ _ _ Hi), splice_cases.
    unfold wrappedInline in Hw. rewrite Hi, wraps_validSpan in Hw.
    rewrite Hw, Hsp.
    rewrite !map_id. reflexivity.
  - repeat split.
Qed.

Lemma marker_index_is_sorted_position_witness :
  nth_error (sortedCitations [Sample.low; Sample.high]) 0 = Some Sample.high
  /\ wrappedInline Sample.twenty [Sample.low; Sample.high] 0 = true
  /\ processedBefore (fun c => c) Sample.twenty [Sample.low; Sample.high] 1
     = JS.str "abcdefghij" ++ markerOpen 0 ++ JS.str "klmn"
         ++ markerClose Sample.high ++ JS.str "opqrst".
Proof.
  split; [reflexivity|]. split; [reflexivity|].
  apply (proj1 marker_index_is_sorted_position Sample.twenty
           [Sample.low; Sample.high] 0%nat Sample.high
           {| start := 10; end_ := 14 |}); reflexivity.
Defined.

(** ** The round trip read on the string itself *)

(** The lemmas of this part are about the stripper of plain strings,
    [stripMarkup]: it gives the answer back when every citation carries a
    span, the spans are valid and pairwise non-overlapping, the answer does
    not hold the character that opens a tag and no tooltip holds a closing
    tag (the highlighter escapes nothing). *)

Lemma startsWith_app (prefix rest : list ascii) :
  startsWith prefix (prefix ++ rest) = true.
Proof.
  induction prefix as [|p prefix IH]; simpl; [reflexivity|].
  now rewrite Ascii.eqb_refl.
Qed.

Lemma startsWith_head (p c : ascii) (prefix s : list ascii) :
  Ascii.eqb c p = false -> startsWith (p :: prefix) (c :: s) = false.
Proof. intros H. simpl. rewrite Ascii.eqb_sym. now rewrite H. Qed.

Lemma stripFrom_outside_cons (c : ascii) (rest : list ascii) :
  stripFrom Outside (c :: rest)
  = if startsWith tooltipOpen (c :: rest) then stripFrom InTooltip rest
    else if Ascii.eqb c "<" then stripFrom InTag rest
    else c :: stripFrom Outside rest.
Proof. reflexivity. Qed.

Lemma stripFrom_tooltip_cons (c : ascii) (rest : list ascii) :
  stripFrom InTooltip (c :: rest)
  = if startsWith spanClose (c :: rest) then stripFrom InTag rest
    else stripFrom InTooltip rest.
Proof. reflexivity. Qed.

Lemma strip_outside_plain (u rest : list ascii) :
  plainText u = true ->
  stripFrom Outside (u ++ rest) = u ++ stripFrom Outside rest.
Proof.
  induction u as [|c u IH]; intros H; [reflexivity|].
  simpl in H. apply andb_prop in H as [Hc Hu]. apply negb_true_iff in Hc.
  rewrite <- !app_comm_cons, stripFrom_outside_cons.
  replace (startsWith tooltipOpen (c :: u ++ rest)) with false
    by (symmetry;
        exact (startsWith_head "<" c (tl tooltipOpen) (u ++ rest) Hc)).
  now rewrite Hc, IH.
Qed.

Lemma strip_tooltip_plain (u rest : list ascii) :
  plainText u = true ->
  stripFrom InTooltip (u ++ rest) = stripFrom InTooltip rest.
Proof.
  induction u as [|c u IH]; intros H; [reflexivity|].
  simpl in H. apply andb_prop in H as [Hc Hu]. apply negb_true_iff in Hc.
  rewrite <- !app_comm_cons, stripFrom_tooltip_cons.
  replace (startsWith spanClose (c :: u ++ rest)) with false
    by (symmetry;
        exact (startsWith_head "<" c (tl spanClose) (u ++ rest) Hc)).
  now apply IH.
Qed.

Lemma strip_tag_body (u rest : list ascii) :
  noTagEnd u = true ->
  stripFrom InTag (u ++ ">"%char :: rest) = stripFrom Outside rest.
Proof.
  induction u as [|c u IH]; intros H; simpl in *; [reflexivity|].
  apply andb_prop in H as [Hc Hu]. apply negb_true_iff in Hc.
  rewrite Hc. now apply IH.
Qed.

(** The decimal text of an index holds digits only. *)
Lemma string_of_uint_forallb (P : ascii -> bool) (d : Decimal.uint) :
  forallb P (JS.str "0123456789") = true ->
  forallb P (JS.str (NilEmpty.string_of_uint d)) = true.
Proof.
  intros H. simpl in H.
  repeat (apply andb_prop in H as [? H]).
  induction d; simpl; try reflexivity;
    apply andb_true_intro; split; assumption.
Qed.

Lemma toString_noTagEnd (n : nat) : noTagEnd (JS.toString n) = true.
Proof. apply string_of_uint_forallb. reflexivity. Qed.

Lemma forallb_firstn {T : Type} (f : T -> bool) (n : nat) (l : list T) :
  forallb f l = true -> forallb f (firstn n l) = true.
Proof.
  revert n. induction l as [|x l IH]; intros [|n] H; simpl in *; auto.
  apply andb_prop in H as [Hx Hl]. now rewrite Hx, IH.
Qed.

Lemma forallb_skipn {T : Type} (f : T -> bool) (n : nat) (l : list T) :
  forallb f l = true -> forallb f (skipn n l) = true.
Proof.
  revert n. induction l as [|x l IH]; intros [|n] H; simpl in *; auto.
  apply andb_prop in H as [Hx Hl]. now apply IH.
Qed.

(** The stripper drops the opening tag of a marker. *)
Lemma strip_markerOpen (index : nat) (rest : list ascii) :
  stripMarkup (markerOpen index ++ rest) = stripMarkup rest.
Proof.
  unfold stripMarkup, markerOpen.
  set (attrs := JS.str "span class=" ++ [JS.dq] ++ JS.str "highlighted-text"
                  ++ [JS.dq] ++ JS.str " data-citation-id=" ++ [JS.dq]).
  replace ((JS.str "<span class=" ++ [JS.dq] ++ JS.str "highlighted-text"
              ++ [JS.dq] ++ JS.str " data-citation-id=" ++ [JS.dq]
              ++ JS.toString index ++ [JS.dq] ++ JS.str ">") ++ rest)
    with ("<"%char :: (attrs ++ JS.toString index ++ [JS.dq])
                        ++ ">"%char :: rest).
  - rewrite stripFrom_outside_cons.
    replace (startsWith tooltipOpen
               ("<"%char :: (attrs ++ JS.toString index ++ [JS.dq])
                             ++ ">"%char :: rest))
      with false by reflexivity.
    simpl (Ascii.eqb _ _). cbv iota.
    apply strip_tag_body.
    unfold noTagEnd. rewrite !forallb_app.
    fold (noTagEnd (JS.toString index)). rewrite toString_noTagEnd.
    reflexivity.
  - unfold attrs. simpl. rewrite <- !app_assoc. reflexivity.
Qed.

Lemma strip_tooltipOpen (rest : list ascii) :
  stripFrom Outside (tooltipOpen ++ rest) = stripFrom InTooltip rest.
Proof.
  change (tooltipOpen ++ rest)
    with ("<"%char :: (tl tooltipOpen ++ rest)).
  rewrite stripFrom_outside_cons.
  replace (startsWith tooltipOpen ("<"%char :: tl tooltipOpen ++ rest))
    with true by (symmetry; apply (startsWith_app tooltipOpen rest)).
  now apply (strip_tooltip_plain (tl tooltipOpen)).
Qed.

(** A closing tag is found where it starts: no end of a string and start
    of the tag after it make up the tag. *)
Lemma startsWith_spanClose_app (c : ascii) (t rest : list ascii) :
  startsWith spanClose ((c :: t) ++ spanClose ++ rest)
  = startsWith spanClose (c :: t).
Proof.
  destruct t as [|c2 [|c3 [|c4 [|c5 [|c6 [|c7 t]]]]]]; cbn;
    rewrite ?andb_false_r; reflexivity.
Qed.

Lemma strip_tooltip_kept (u rest : list ascii) :
  occurs spanClose u = false ->
  stripFrom InTooltip (u ++ spanClose ++ rest)
  = stripFrom InTooltip (spanClose ++ rest).
Proof.
  induction u as [|c u IH]; intros H; [reflexivity|].
  cbn [occurs] in H. apply orb_false_elim in H as [Hhere Hlater].
  change ((c :: u) ++ spanClose ++ rest)
    with (c :: (u ++ spanClose ++ rest)).
  rewrite stripFrom_tooltip_cons.
  change (c :: (u ++ spanClose ++ rest))
    with ((c :: u) ++ spanClose ++ rest).
  rewrite startsWith_spanClose_app, Hhere.
  now apply IH.
Qed.

(** The stripper drops the tooltip and the closing tags of a marker whose
    tooltip holds no closing tag. *)
Lemma strip_markerClose (citation : Citation) (rest : list ascii) :
  tooltipKept citation = true ->
  stripMarkup (markerClose citation ++ rest) = stripMarkup rest.
Proof.
  intros Hkept. unfold tooltipKept in Hkept.
  apply negb_true_iff in Hkept.
  unfold stripMarkup.
  replace (markerClose citation ++ rest)
    with (tooltipOpen ++ tooltipContent citation ++ spanClose
            ++ (spanClose ++ rest))
    by (unfold markerClose, tooltipOpen, spanClose;
        repeat rewrite <- app_assoc; reflexivity).
  rewrite strip_tooltipOpen, (strip_tooltip_kept _ _ Hkept).
  reflexivity.
Qed.

(** What the stripper returns holds no character that opens a tag: an
    answer that holds one does not come back. *)
Lemma stripFrom_plainText (s : list ascii) :
  forall mode : StripMode, plainText (stripFrom mode s) = true.
Proof.
  induction s as [|c s IH]; intros mode; [reflexivity|].
  destruct mode.
  - rewrite stripFrom_outside_cons.
    destruct (startsWith tooltipOpen (c :: s)); [apply IH|].
    destruct (Ascii.eqb c "<") eqn:Hc; [apply IH|].
    simpl. rewrite Hc. simpl. apply IH.
  - simpl. destruct (Ascii.eqb c ">"); apply IH.
  - rewrite stripFrom_tooltip_cons.
    destruct (startsWith spanClose (c :: s)); apply IH.
Qed.

Lemma firstn_of_prefix {T : Type} (n m : nat) (l tail : list T) :
  (n <= m <= length l)%nat ->
  firstn n (firstn m l ++ tail) = firstn n l.
Proof.
  intros H. rewrite firstn_app, length_firstn, firstn_firstn.
  replace (n - Nat.min m (length l))%nat with 0%nat by lia.
  rewrite Nat.min_l by lia. simpl. apply app_nil_r.
Qed.

Lemma skipn_of_prefix {T : Type} (n m : nat) (l tail : list T) :
  (n <= m <= length l)%nat ->
  skipn n (firstn m l ++ tail) = skipn n (firstn m l) ++ tail.
Proof.
  intros H. rewrite skipn_app, length_firstn.
  replace (n - Nat.min m (length l))%nat with 0%nat by lia.
  reflexivity.
Qed.

(** The pieces between two cuts of a list. *)
Lemma slices_join {T : Type} (s e m : nat) (l : list T) :
  (s <= e <= m)%nat -> (m <= length l)%nat ->
  firstn (e - s) (skipn s l) ++ skipn e (firstn m l) ++ skipn m l
  = skipn s l.
Proof.
  intros H Hm.
  replace (skipn e (firstn m l) ++ skipn m l) with (skipn e l).
  - replace (skipn e l) with (skipn (e - s) (skipn s l)).
    + apply firstn_skipn.
    + rewrite skipn_skipn. f_equal. lia.
  - rewrite <- (firstn_skipn m l) at 1.
    rewrite skipn_app, length_firstn.
    replace (e - Nat.min m (length l))%nat with 0%nat by lia.
    reflexivity.
Qed.

(** The loop along a chained list of citations whose tooltips are kept:
    the string is a
    prefix of the answer followed by a tail that strips to the rest of the
    answer, and stays so. *)
Lemma forEach_stripMarkup (content : list ascii) (l : list Citation) :
  plainText content = true ->
  chained l ->
  Forall (proper (length content)) l ->
  Forall (fun c => tooltipKept c = true) l ->
  forall (index m : nat) (tail : list ascii),
    (m <= length content)%nat ->
    (forall c, In c l -> spanEnd c <= Z.of_nat m) ->
    stripMarkup tail = skipn m content ->
    stripMarkup
      (JS.forEach_from (splice (fun c => c)) l index
         (firstn m content ++ tail))
    = content.
Proof.
  intros Hplain Hc. unfold chained in Hc.
  induction Hc as [|x l Hc IH Hx];
    intros Hproper Hcit index m tail Hm Hends Htail; simpl.
  - unfold stripMarkup.
    rewrite strip_outside_plain by (now apply forallb_firstn).
    fold (stripMarkup tail). rewrite Htail. apply firstn_skipn.
  - inversion Hproper as [|? ? Hpx Hpl]; subst.
    inversion Hcit as [|? ? Hcx Hcl]; subst.
    pose proof (Hends x (or_introl eq_refl)) as Hxm.
    destruct Hpx as (Hsx & Hbx & Hex).
    destruct (span x) as [sp|] eqn:Hsp; [|congruence].
    unfold spanStart, spanEnd in Hbx, Hex, Hxm. rewrite Hsp in Hbx, Hex, Hxm.
    set (p := firstn m content ++ tail).
    assert (Hlenp : (m <= length p)%nat).
    { unfold p. rewrite length_app, length_firstn. lia. }
    assert (Hvalid : validSpan (length p) x = true).
    { apply proper_validSpan. unfold proper, spanStart, spanEnd.
      rewrite Hsp. repeat split; try lia. congruence. }
    rewrite splice_cases, Hvalid, Hsp, !map_id.
    assert (Hpre : firstn (Z.to_nat (end_ sp)) p
                   = firstn (Z.to_nat (end_ sp)) content).
    { unfold p. apply firstn_of_prefix. lia. }
    rewrite (substring_of_prefix p content 0 (start sp)); try lia;
      [|apply (firstn_shorter _ (Z.to_nat (end_ sp))); [lia|exact Hpre]].
    rewrite (substring_of_prefix p content (start sp) (end_ sp)); try lia;
      [|exact Hpre].
    rewrite substring_prefix, substring_middle, substring_from_suffix by lia.
    unfold p. rewrite skipn_of_prefix by lia.
    apply IH; try assumption.
    + lia.
    + intros c Hin.
      pose proof (proj1 (Forall_forall _ _) Hx c Hin) as Hcx'.
      simpl in Hcx'. unfold spanStart in Hcx' at 1. rewrite Hsp in Hcx'.
      lia.
    + rewrite strip_markerOpen. unfold stripMarkup.
      rewrite strip_outside_plain
        by (now apply forallb_firstn, forallb_skipn).
      fold (stripMarkup (markerClose x
                           ++ skipn (Z.to_nat (end_ sp)) (firstn m content)
                           ++ tail)).
      rewrite strip_markerClose by exact Hcx. unfold stripMarkup.
      rewrite strip_outside_plain
        by (now apply forallb_skipn, forallb_firstn).
      fold (stripMarkup tail). rewrite Htail.
      apply slices_join; lia.
Qed.

(** The round trip on the plain string. *)
Lemma highlight_stripMarkup (text : list ascii) (citations : list Citation) :
  plainText text = true ->
  forallb tooltipKept citations = true ->
  allSpans citations = true ->
  spansValid (length text) citations = true ->
  pairwiseNonOverlapping citations = true ->
  stripMarkup (highlight text citations) = text.
Proof.
  intros Hplain Hcit Hall Hvalid Hno.
  pose proof (sort_permutation compareCitations citations) as Hperm.
  fold (sortedCitations citations) in Hperm.
  assert (Hproper : Forall (proper (length text))
                      (sortedCitations citations)).
  { apply Forall_forall. intros z Hz.
    apply (proj1 (Forall_forall _ _) (all_proper _ _ Hall Hvalid)).
    eapply Permutation_in; [apply Permutation_sym, Hperm|exact Hz]. }
  unfold highlight, processedContent, JS.forEach.
  rewrite <- (app_nil_r text) at 1.
  rewrite <- (firstn_all text) at 1.
  apply forEach_stripMarkup; try assumption.
  - now apply (sortedCitations_chained (length text)).
  - apply Forall_forall. intros z Hz.
    apply (proj1 (forallb_forall _ _) Hcit).
    eapply Permutation_in; [apply Permutation_sym, Hperm|exact Hz].
  - lia.
  - intros c Hin.
    now destruct (proj1 (Forall_forall _ _) Hproper c Hin) as (_ & _ & H).
  - now rewrite skipn_all.
Qed.

(** ** The round trip *)

(** C1, as claimed, fails: the script writes the answer, the sources and
    the excerpts into the markup as they are, and removing markup from the
    string it builds does not give every answer back.
    - No function on strings undoes the highlighter on all the inputs of
      the claim: the answer "Paris is the capital." with its citation, and
      the answer that is the markup of that answer, with no citation, give
      the same string.
    - An answer that holds the character [<] never comes back; [a<b>c]
      comes back as [ac].
    - An excerpt that holds [</span>] ends the tooltip early, and the rest
      of the excerpt comes back as part of the answer.
    - With a citation without a span between the spans 2..5 and 10..14 the
      sort leaves the list as it is, the span 10..14 is cut out of the
      string that already holds the marker of 2..5, and what is wrapped is
      [ass=], four code units of the opening tag of that marker. *)
Lemma strip_roundtrip_fails :
  (forall strip' : list ascii -> list ascii,
      ~ (forall (text : list ascii) (citations : list Citation),
            spansValid (length text) citations = true ->
            pairwiseNonOverlapping citations = true ->
            strip' (highlight text citations) = text))
  /\ (forall (text : list ascii) (citations : list Citation),
        plainText text = false ->
        stripMarkup (highlight text citations) <> text)
  /\ (spansValid (length Sample.angled) [Sample.geo] = true
      /\ pairwiseNonOverlapping [Sample.geo] = true
      /\ stripMarkup (highlight Sample.angled [Sample.geo]) = JS.str "ac")
  /\ (spansValid (length Sample.paris) [Sample.leaking] = true
      /\ pairwiseNonOverlapping [Sample.leaking] = true
      /\ plainText Sample.paris = true
      /\ tooltipKept Sample.leaking = false
      /\ stripMarkup (highlight Sample.paris [Sample.leaking])
         = JS.str "Parishere... is the capital.")
  /\ (spansValid (length Sample.twenty)
        [Sample.low; Sample.bare; Sample.high] = true
      /\ pairwiseNonOverlapping [Sample.low; Sample.bare; Sample.high] = true
      /\ plainText Sample.twenty = true
      /\ forallb tooltipKept [Sample.low; Sample.bare; Sample.high] = true
      /\ highlight Sample.twenty [Sample.low; Sample.bare; Sample.high]
         = JS.str "ab<span cl" ++ markerOpen 2 ++ JS.str "ass="
             ++ markerClose Sample.high
             ++ [JS.dq] ++ JS.str "highlighted-text" ++ [JS.dq]
             ++ JS.str " data-citation-id=" ++ [JS.dq] ++ JS.str "0"
             ++ [JS.dq] ++ JS.str ">" ++ JS.str "cde"
             ++ markerClose Sample.low ++ JS.str "fghijklmnopqrst"
      /\ stripMarkup
           (highlight Sample.twenty [Sample.low; Sample.bare; Sample.high])
         <> Sample.twenty).
Proof.
  split; [|split; [|split; [|split]]].
  - intros strip' Hstrip.
    pose proof (Hstrip Sample.paris [Sample.geo] eq_refl eq_refl) as Hfirst.
    pose proof (Hstrip (highlight Sample.paris [Sample.geo]) []
                  eq_refl eq_refl) as Hsecond.
    change (highlight (highlight Sample.paris [Sample.geo]) [])
      with (highlight Sample.paris [Sample.geo]) in Hsecond.
    rewrite Hfirst in Hsecond. discriminate Hsecond.
  - intros text citations Hangled Hback.
    pose proof (stripFrom_plainText (highlight text citations) Outside)
      as Hplain.
    fold (stripMarkup (highlight text citations)) in Hplain.
    rewrite Hback in Hplain. congruence.
  - repeat split.
  - repeat split.
  - do 5 (split; [reflexivity|]). discriminate.
Qed.

(** C1, amended.  For every answer without the character [<] and every
    list of citations that all carry a span, with spans each valid for the
    answer and pairwise non-overlapping, and with no [</span>] in the text
    of a tooltip (the name of the file and the first hundred code units of
    the excerpt), removing from the string the highlighter hands to
    [innerHTML] every tag, and every tooltip from its opening tag to the
    [</span>] that follows, gives the answer back. *)
Theorem highlight_strip_roundtrip (text : list ascii)
    (citations : list Citation)
    (Hplain : plainText text = true)
    (Hcitations : forallb tooltipKept citations = true)
    (Hall : allSpans citations = true)
    (Hvalid : spansValid (length text) citations = true)
    (Hdisjoint : pairwiseNonOverlapping citations = true) :
  stripMarkup (highlight text citations) = text.
Proof.
  now apply highlight_stripMarkup.
Qed.

Lemma highlight_strip_roundtrip_witness :
  stripMarkup (highlight Sample.twenty [Sample.low; Sample.high])
  = Sample.twenty
  /\ stripMarkup (highlight Sample.paris [Sample.geo]) = Sample.paris.
Proof.
  split.
  - apply (highlight_strip_roundtrip Sample.twenty
             [Sample.low; Sample.high]); reflexivity.
  - apply (highlight_strip_roundtrip Sample.paris [Sample.geo]);
      reflexivity.
Defined.

(** ** Citations as they arrive *)

Lemma insert_arrived (x : Citation) (l : list Citation) :
  JS.insert compareArrived (arrived x) (map arrived l)
  = map arrived (JS.insert compareCitations x l).
Proof.
  induction l as [|y l IH]; simpl; [reflexivity|].
  change (compareArrived (arrived x) (arrived y))
    with (compareCitations x y).
  destruct (compareCitations x y <=? 0); simpl; [reflexivity|].
  now rewrite IH.
Qed.

Lemma sort_arrived (l : list Citation) :
  JS.sort compareArrived (map arrived l) = map arrived (sortedCitations l).
Proof.
  unfold sortedCitations.
  induction l as [|x l IH]; simpl; [reflexivity|].
  now rewrite IH, insert_arrived.
Qed.

Lemma forEach_spliceArrived (l : list Citation) :
  forall (index : nat) (processed : list ascii),
    JS.forEach_from spliceArrived (map arrived l) index (Some processed)
    = Some (JS.forEach_from (splice (fun c => c)) l index processed).
Proof.
  induction l as [|x l IH]; intros index processed; simpl; [reflexivity|].
  rewrite <- IH. f_equal.
  unfold spliceArrived, splice, readCitation. simpl.
  destruct (span x) as [sp|]; [|reflexivity].
  destruct (inBounds processed sp); [|reflexivity].
  now destruct x.
Qed.

Lemma footerArrived_from (l : list Citation) :
  forall (index : nat) (innerHTML : list ascii),
    JS.forEach_from
      (fun innerHTML citation index =>
         match innerHTML with
         | None => None
         | Some innerHTML =>
             match Data.source citation with
             | JS.String source =>
                 Some (innerHTML ++ JS.str "[" ++ JS.toString (index + 1)
                         ++ JS.str "] " ++ JS.pop (JS.split "/" source)
                         ++ JS.str "<br>")
             | _ => None
             end
         end)
      (map arrived l) index (Some innerHTML)
    = Some (JS.forEach_from
              (fun innerHTML citation index =>
                 innerHTML ++ footerEntry index citation)
              l index innerHTML).
Proof.
  induction l as [|x l IH]; intros index innerHTML; simpl; [reflexivity|].
  now rewrite <- IH.
Qed.

(** On citations that carry all their properties nothing throws, and what
    is built is what the highlighter gives. *)
Lemma renderArrived_arrived (content : list ascii)
    (citations : option (list Citation)) :
  renderArrived content (option_map (map arrived) citations)
  = Some (renderedWithCitations content citations).
Proof.
  destruct citations as [[|x l]|]; try reflexivity.
  unfold renderArrived, renderedWithCitations, addMessageWithCitations,
    processedContent, citationsContainer, footerArrived, JS.forEach.
  cbn [option_map].
  change (arrived x :: map arrived l) with (map arrived (x :: l)).
  now rewrite sort_arrived, forEach_spliceArrived, footerArrived_from.
Qed.

(** A citation whose span is wrapped and whose [source] is missing makes
    the rendering throw. *)
Example renderArrived_sourceless :
  renderArrived (Data.response Sample.sourcelessReply)
                (Data.citations Sample.sourcelessReply) = None.
Proof. reflexivity. Qed.

(** ** The driver, step by step *)

Module ClientFacts.

Import Client.

Lemma trim_empty : JS.trim [] = [].
Proof. reflexivity. Qed.

(** What a call does when the trimmed text is not empty. *)
Lemma submit_some (app : ChatApp) :
  JS.trim (messageInput_value app) <> [] ->
  sendMessage_submit app
  = Some (setLoading true
            (setValue []
               (addMessage (JS.trim (messageInput_value app)) user app)),
          {| url := apiUrl app;
             method := JS.str "POST";
             contentType := JS.str "application/json";
             body := JS.stringify
                       [(JS.str "prompt",
                         JS.String (JS.trim (messageInput_value app)));
                        (JS.str "sessionId", sessionId app)] |}).
Proof.
  intros H. unfold sendMessage_submit.
  destruct (JS.trim (messageInput_value app)); [congruence|reflexivity].
Qed.

Lemma submit_none (app : ChatApp) :
  JS.trim (messageInput_value app) = [] -> sendMessage_submit app = None.
Proof. intros H. unfold sendMessage_submit. now rewrite H. Qed.

(** The body of a request spelled out. *)
Lemma stringify_body (message : list ascii) (id : JS.Value) :
  JS.stringify [(JS.str "prompt", JS.String message);
                (JS.str "sessionId", id)]
  = match id with
    | JS.undefined =>
        JS.str "{" ++ JS.quote (JS.str "prompt") ++ JS.str ":"
          ++ JS.quote message ++ JS.str "}"
    | JS.null => bodyWith message (JS.str "null")
    | JS.String s => bodyWith message (JS.quote s)
    end.
Proof.
  unfold JS.stringify, bodyWith, JS.quote.
  destruct id; cbn; repeat (rewrite <- app_assoc; cbn); reflexivity.
Qed.

(** A failed round trip ends in the [catch] block. *)
Lemma try_failed (app : ChatApp) (result : FetchResult) :
  failed result -> sendMessage_try app result = Throw app.
Proof.
  destruct result as [|status json]; simpl; [reflexivity|].
  intros [H| ->].
  - now rewrite H.
  - now destruct (ok status).
Qed.


Lemma session_cons (app : ChatApp) (text : list ascii)
    (result : FetchResult) (rest : list (list ascii * FetchResult)) :
  session app ((text, result) :: rest)
  = (fst (session
            (fst (sendMessage (fun _ => result) (setValue text app))) rest),
     snd (sendMessage (fun _ => result) (setValue text app))
       ++ snd (session
                 (fst (sendMessage (fun _ => result) (setValue text app)))
                 rest)).
Proof.
  simpl. destruct (sendMessage _ _) as [app1 requests]. simpl.
  now destruct (session app1 rest).
Qed.

(** A response that has arrived with a good status and a body that
    parses: its identifier is stored, and then the message is appended or,
    when building the markup throws, nothing is. *)
Lemma try_arrived (app : ChatApp) (status : Z) (data : Data.t) :
  ok status = true ->
  (exists rendered,
      renderArrived (Data.response data) (Data.citations data)
      = Some rendered
      /\ sendMessage_try app (Response status (Some data))
         = Normal (appendChild {| type := bot; contentDiv := rendered |}
                     (setSessionId (Data.sessionId data) app)))
  \/ (renderArrived (Data.response data) (Data.citations data) = None
      /\ sendMessage_try app (Response status (Some data))
         = Throw (setSessionId (Data.sessionId data) app)).
Proof.
  intros Hok. unfold sendMessage_try, addMessageWithCitations.
  rewrite Hok. simpl.
  destruct (renderArrived (Data.response data) (Data.citations data))
    as [rendered|].
  - left. exists rendered. now split.
  - right. now split.
Qed.

(** One successful round trip: one request, which carries the identifier
    the client held, and the identifier of the response is stored. *)
Lemma successful_turn (app : ChatApp) (text : list ascii) (status : Z)
    (data : Data.t) :
  JS.trim text <> [] -> ok status = true ->
  exists request,
    snd (sendMessage (fun _ => Response status (Some data))
           (setValue text app)) = [request]
    /\ body request
       = JS.stringify [(JS.str "prompt", JS.String (JS.trim text));
                       (JS.str "sessionId", sessionId app)]
    /\ sessionId (fst (sendMessage (fun _ => Response status (Some data))
                         (setValue text app)))
       = Data.sessionId data.
Proof.
  intros Htext Hok. unfold sendMessage.
  rewrite submit_some by exact Htext. cbn [fst snd].
  eexists. split; [reflexivity|]. split; [reflexivity|].
  unfold sendMessage_resume.
  match goal with
  | |- context [sendMessage_try ?a _] =>
      destruct (try_arrived a status data Hok)
        as [(rendered & _ & ->)|(_ & ->)]
  end; reflexivity.
Qed.

Lemma session_requests (turns : list (list ascii * FetchResult)) :
  Forall successful turns ->
  forall app : ChatApp,
    length (snd (session app turns)) = length turns
    /\ (forall text result rest,
           turns = (text, result) :: rest ->
           exists request,
             nth_error (snd (session app turns)) 0 = Some request
             /\ body request
                = JS.stringify
                    [(JS.str "prompt", JS.String (JS.trim text));
                     (JS.str "sessionId", sessionId app)])
    /\ (forall k text status data text' result',
           nth_error turns k = Some (text, Response status (Some data)) ->
           nth_error turns (S k) = Some (text', result') ->
           exists request,
             nth_error (snd (session app turns)) (S k) = Some request
             /\ body request
                = JS.stringify
                    [(JS.str "prompt", JS.String (JS.trim text'));
                     (JS.str "sessionId",
                      Data.sessionId data)]).
Proof.
  induction 1 as [|[text result] rest Hturn Hrest IH]; intros app.
  - repeat split.
    + intros text result rest H. discriminate.
    + intros [|k]; discriminate.
  - destruct Hturn as (Htext & status & data & Hres & Hok).
    simpl in Htext, Hres. subst result.
    destruct (successful_turn app text status data Htext Hok)
      as (request & Hreq & Hbody & Hid).
    rewrite session_cons. simpl snd. rewrite Hreq.
    set (app1 := fst (sendMessage (fun _ => Response status (Some data))
                        (setValue text app))) in *.
    destruct (IH app1) as (Hlen & Hhead & Hnext).
    split; [|split].
    + simpl. now rewrite Hlen.
    + intros text0 result0 rest0 Heq. injection Heq as <- _ _.
      exists request. now split.
    + intros [|k] text0 status0 data0 text' result' Hk Hk'; simpl in Hk, Hk'.
      * injection Hk as <- _ <-.
        destruct rest as [|[t r] rest']; [discriminate|].
        injection Hk' as -> ->.
        destruct (Hhead text' result' rest' eq_refl) as (req & H1 & H2).
        exists req. split; [exact H1|]. now rewrite H2, Hid.
      * apply (Hnext k text0 status0 data0 text' result' Hk Hk').
Qed.

(** A call issues at most one request, with the trimmed text as prompt and
    the identifier the client holds. *)
Lemma sendMessage_requests (fetch : Request -> FetchResult) (app : ChatApp) :
  snd (sendMessage fetch app) = []
  /\ fst (sendMessage fetch app) = app
  \/ exists request,
       snd (sendMessage fetch app) = [request]
       /\ body request
          = JS.stringify
              [(JS.str "prompt",
                JS.String (JS.trim (messageInput_value app)));
               (JS.str "sessionId", sessionId app)].
Proof.
  unfold sendMessage.
  destruct (JS.trim (messageInput_value app)) eqn:Htrim.
  - left. rewrite submit_none by exact Htrim. now split.
  - right. rewrite submit_some by congruence. simpl.
    eexists. split; [reflexivity|]. now rewrite Htrim.
Qed.

(** A call keeps the identifier or stores the one of the body that
    arrived. *)
Lemma sendMessage_sessionId (fetch : Request -> FetchResult)
    (app : ChatApp) :
  sessionId (fst (sendMessage fetch app)) = sessionId app
  \/ exists request status data,
       fetch request = Response status (Some data)
       /\ sessionId (fst (sendMessage fetch app)) = Data.sessionId data.
Proof.
  unfold sendMessage.
  destruct (sendMessage_submit app) as [[waiting request]|] eqn:Hsub;
    [|now left].
  unfold sendMessage_submit in Hsub.
  destruct (JS.trim (messageInput_value app)); [discriminate|].
  injection Hsub as <- <-. cbn [fst].
  unfold sendMessage_resume.
  destruct (fetch _) as [|status [data|]] eqn:Hfetch;
    try (left; reflexivity).
  - destruct (ok status) eqn:Hok.
    + right. eexists; exists status, data. split; [exact Hfetch|].
      match goal with
      | |- context [sendMessage_try ?a _] =>
          destruct (try_arrived a status data Hok)
            as [(rendered & _ & ->)|(_ & ->)]
      end; reflexivity.
    + left. unfold sendMessage_try. rewrite Hok. reflexivity.
  - left. unfold sendMessage_try. destruct (ok status); reflexivity.
Qed.

Lemma session_first_request (turns : list (list ascii * FetchResult)) :
  forall (app : ChatApp) (request : Request),
    sessionId app = JS.null ->
    hd_error (snd (session app turns)) = Some request ->
    exists message, body request = bodyWith message (JS.str "null").
Proof.
  induction turns as [|[text result] rest IH]; intros app request Hnull Hhd.
  - discriminate.
  - rewrite session_cons in Hhd. simpl snd in Hhd.
    destruct (sendMessage_requests (fun _ => result) (setValue text app))
      as [[Hnone Hsame]|(first & Hone & Hbody)].
    + rewrite Hnone, Hsame in Hhd. simpl in Hhd.
      apply (IH (setValue text app) request); [exact Hnull|exact Hhd].
    + rewrite Hone in Hhd. simpl in Hhd. injection Hhd as <-.
      eexists. rewrite Hbody, stringify_body. simpl sessionId.
      rewrite Hnull. reflexivity.
Qed.

Lemma session_every_request (turns : list (list ascii * FetchResult)) :
  Forall definesSession turns ->
  forall (app : ChatApp) (request : Request),
    sessionId app <> JS.undefined ->
    In request (snd (session app turns)) ->
    exists message value,
      body request = bodyWith message value
      /\ (value = JS.str "null" \/ exists id, value = JS.quote id).
Proof.
  induction 1 as [|[text result] rest Hturn _ IH];
    intros app request Hdef Hin.
  - destruct Hin.
  - rewrite session_cons in Hin. simpl snd in Hin.
    apply in_app_or in Hin as [Hin|Hin].
    + destruct (sendMessage_requests (fun _ => result) (setValue text app))
        as [[Hnone _]|(first & Hone & Hbody)].
      * rewrite Hnone in Hin. destruct Hin.
      * rewrite Hone in Hin. destruct Hin as [<-|[]].
        rewrite Hbody, stringify_body. simpl sessionId.
        destruct (sessionId app) as [| |id]; [congruence| |].
        -- do 2 eexists. split; [reflexivity|]. now left.
        -- do 2 eexists. split; [reflexivity|]. right. now exists id.
    + eapply IH; [|exact Hin].
      destruct (sendMessage_sessionId (fun _ => result) (setValue text app))
        as [Hsame|(r & status & data & Hres & Hs)].
      * rewrite Hsame. exact Hdef.
      * rewrite Hs. unfold definesSession in Hturn. simpl in Hturn.
        now rewrite Hres in Hturn.
Qed.

End ClientFacts.

(** ** The claims on the driver *)

(** C4.  In a session of successful round trips every turn issues one
    request, and the request of the turn after a response carries, as
    [sessionId], the identifier that response returned, as it is.  In
    particular the second request carries the identifier of the first
    response. *)
Theorem session_continuity (app : Client.ChatApp)
    (turns : list (list ascii * Client.FetchResult))
    (Hsuccessful : Forall Client.successful turns) :
  length (snd (Client.session app turns)) = length turns
  /\ forall (k : nat) (text text' : list ascii) (status : Z) (data : Data.t)
            (result' : Client.FetchResult),
       nth_error turns k = Some (text, Client.Response status (Some data)) ->
       nth_error turns (S k) = Some (text', result') ->
       exists request,
         nth_error (snd (Client.session app turns)) (S k) = Some request
         /\ Client.body request
            = JS.stringify
                [(JS.str "prompt", JS.String (JS.trim text'));
                 (JS.str "sessionId", Data.sessionId data)].
Proof.
  destruct (ClientFacts.session_requests turns Hsuccessful app)
    as (Hlen & _ & Hnext).
  split; [exact Hlen|].
  intros k text text' status data result' Hk Hk'.
  exact (Hnext k text status data text' result' Hk Hk').
Qed.

Lemma session_continuity_witness :
  exists request,
    nth_error
      (snd (Client.session (Sample.idleApp "")
              [(JS.str "What is the capital of France?",
                Client.Response 200 (Some Sample.firstReply));
               (JS.str " How many people live there? ",
                Client.Response 200 (Some Sample.secondReply))]))
      1
    = Some request
    /\ Client.body request
       = Client.bodyWith (JS.str "How many people live there?")
           (JS.quote (JS.str "abc123")).
Proof.
  assert (Hturns : Forall Client.successful
            [(JS.str "What is the capital of France?",
              Client.Response 200 (Some Sample.firstReply));
             (JS.str " How many people live there? ",
              Client.Response 200 (Some Sample.secondReply))]).
  { repeat constructor; simpl; try discriminate.
    - exists 200, Sample.firstReply. now split.
    - exists 200, Sample.secondReply. now split. }
  destruct (session_continuity (Sample.idleApp "") _ Hturns) as [_ Hnext].
  apply (Hnext 0%nat (JS.str "What is the capital of France?")
           (JS.str " How many people live there? ") 200
           Sample.firstReply (Client.Response 200 (Some Sample.secondReply)));
    reflexivity.
Defined.

(** C7.  A submission whose prompt, the trimmed text of the input, is
    empty is given up at once: the call stops before it reaches [fetch], so
    no request is issued, and the client is left in the state it was in,
    not in the waiting state. *)
Theorem empty_prompt_no_request (fetch : Client.Request -> Client.FetchResult)
    (app : Client.ChatApp)
    (Hempty : JS.trim (Client.messageInput_value app) = []) :
  Client.sendMessage_submit app = None
  /\ Client.sendMessage fetch app = (app, []).
Proof.
  unfold Client.sendMessage.
  rewrite (ClientFacts.submit_none app Hempty). now split.
Qed.

Lemma empty_prompt_no_request_witness :
  Client.sendMessage (fun _ => Client.Rejected) (Sample.idleApp "")
  = (Sample.idleApp "", [])
  /\ Client.sendMessage (fun _ => Client.Rejected) (Sample.idleApp "   ")
     = (Sample.idleApp "   ", []).
Proof.
  split.
  - apply (empty_prompt_no_request _ (Sample.idleApp "")). reflexivity.
  - apply (empty_prompt_no_request _ (Sample.idleApp "   ")). reflexivity.
Defined.

(** C8.  When a call has issued its request, the client waits with its
    controls disabled; if the round trip then fails (the transport fails,
    the status is not in 200..299, or the body does not parse), the call
    appends one message, the apology, to the transcript, after the message
    of the user, and leaves both controls enabled and the spinner hidden.
    The identifier of the session is the one held before. *)
Theorem failed_request_recovers (app waiting : Client.ChatApp)
    (request : Client.Request) (result : Client.FetchResult)
    (Hsubmit : Client.sendMessage_submit app = Some (waiting, request))
    (Hfailed : Client.failed result) :
  Client.awaiting waiting
  /\ Client.chatMessages waiting
     = Client.chatMessages app
         ++ [{| Client.type := Client.user;
                Client.contentDiv :=
                  TextContent (JS.trim (Client.messageInput_value app)) |}]
  /\ Client.chatMessages (Client.sendMessage_resume waiting result)
     = Client.chatMessages waiting
         ++ [{| Client.type := Client.bot;
                Client.contentDiv := TextContent Client.apology |}]
  /\ Client.idle (Client.sendMessage_resume waiting result)
  /\ Client.sessionId (Client.sendMessage_resume waiting result)
     = Client.sessionId app.
Proof.
  unfold Client.sendMessage_submit in Hsubmit.
  destruct (JS.trim (Client.messageInput_value app)) as [|c message];
    [discriminate|].
  injection Hsubmit as <- <-.
  unfold Client.sendMessage_resume.
  rewrite (ClientFacts.try_failed _ _ Hfailed).
  repeat split.
Qed.

Lemma failed_request_recovers_witness :
  Client.idle
    (fst (Client.sendMessage (fun _ => Client.Response 502 None)
            (Sample.idleApp "hello")))
  /\ Client.idle
       (fst (Client.sendMessage (fun _ => Client.Rejected)
               (Sample.idleApp "hello"))).
Proof.
  split.
  - apply (failed_request_recovers (Sample.idleApp "hello") _ _
             (Client.Response 502 None) eq_refl). now left.
  - apply (failed_request_recovers (Sample.idleApp "hello") _ _
             Client.Rejected eq_refl). exact I.
Defined.

(** C10, as claimed, fails: the identifier of a response is stored as it
    arrives.  After a response with status 200 whose body has no property
    [sessionId] the client holds [undefined], and the body of the next
    request is [{"prompt":"again"}]: it has no field [sessionId] at all. *)
Lemma sessionId_field_can_be_missing :
  let requests :=
    snd (Client.session (Sample.idleApp "")
           [(JS.str "hello", Client.Response 200 (Some Sample.anonymousReply));
            (JS.str "again", Client.Rejected)]) in
  map Client.body requests
  = [Client.bodyWith (JS.str "hello") (JS.str "null");
     JS.str "{" ++ JS.quote (JS.str "prompt") ++ JS.str ":"
       ++ JS.quote (JS.str "again") ++ JS.str "}"]
  /\ ~ (forall request : Client.Request,
          In request requests ->
          exists message text,
            Client.body request = Client.bodyWith message text).
Proof.
  split; [reflexivity|].
  intros Hall.
  destruct (Hall _ (or_intror (or_introl eq_refl))) as (message & text & Hbody).
  assert (Hin : In ","%char (Client.bodyWith message text)).
  { unfold Client.bodyWith. rewrite !in_app_iff.
    right. right. right. right. left. now left. }
  rewrite <- Hbody in Hin.
  vm_compute in Hin. intuition discriminate.
Qed.

(** C10, amended.  A client fresh from its constructor, configured or
    not, holds [null] as identifier.  The first request of its session,
    whatever was typed and submitted before without a request being issued,
    has a body with the property [sessionId] written out as [null]; and when
    every body that arrives in the session carries a [sessionId], every
    request of the session has a body with the two properties [prompt] and
    [sessionId], the second being [null] or a quoted string. *)
Theorem first_request_sessionId_null (config : option (list ascii))
    (value : list ascii) (inputDisabled sendDisabled : bool)
    (display : Client.Display) (messages : list Client.Message)
    (turns : list (list ascii * Client.FetchResult)) :
  Client.sessionId
    (Client.constructor value inputDisabled sendDisabled display messages)
  = JS.null
  /\ (forall request : Client.Request,
        hd_error
          (snd (Client.session
                  (Client.init config
                     (Client.constructor value inputDisabled sendDisabled
                        display messages))
                  turns))
        = Some request ->
        exists message,
          Client.body request = Client.bodyWith message (JS.str "null"))
  /\ (Forall Client.definesSession turns ->
      forall request : Client.Request,
        In request
          (snd (Client.session
                  (Client.init config
                     (Client.constructor value inputDisabled sendDisabled
                        display messages))
                  turns)) ->
        exists message text,
          Client.body request = Client.bodyWith message text
          /\ (text = JS.str "null" \/ exists id, text = JS.quote id)).
Proof.
  assert (Hnull : Client.sessionId
                    (Client.init config
                       (Client.constructor value inputDisabled sendDisabled
                          display messages)) = JS.null)
    by (destruct config; reflexivity).
  split; [reflexivity|]. split.
  - intros request. now apply ClientFacts.session_first_request.
  - intros Hturns request.
    apply (ClientFacts.session_every_request turns Hturns).
    rewrite Hnull. discriminate.
Qed.

Lemma first_request_sessionId_null_witness :
  (exists request message,
      hd_error
        (snd (Client.session (Sample.idleApp "")
                [(JS.str "  ", Client.Rejected);
                 (JS.str "hello",
                  Client.Response 200 (Some Sample.firstReply));
                 (JS.str "more",
                  Client.Response 200 (Some Sample.secondReply))]))
      = Some request
      /\ Client.body request = Client.bodyWith message (JS.str "null"))
  /\ (exists request message text,
        nth_error
          (snd (Client.session (Sample.idleApp "")
                  [(JS.str "  ", Client.Rejected);
                   (JS.str "hello",
                    Client.Response 200 (Some Sample.firstReply));
                   (JS.str "more",
                    Client.Response 200 (Some Sample.secondReply))]))
          1
        = Some request
        /\ Client.body request = Client.bodyWith message text
        /\ (text = JS.str "null" \/ exists id, text = JS.quote id)).
Proof.
  destruct (first_request_sessionId_null
              (Some (JS.str "https://api.example/")) [] true true
              Client.none []
              [(JS.str "  ", Client.Rejected);
               (JS.str "hello", Client.Response 200 (Some Sample.firstReply));
               (JS.str "more", Client.Response 200 (Some Sample.secondReply))])
    as (_ & Hfirst & Hevery).
  split.
  - destruct (Hfirst _ eq_refl) as [message Hbody].
    eexists. exists message. split; [reflexivity|exact Hbody].
  - assert (Hturns : Forall Client.definesSession
              [(JS.str "  ", Client.Rejected);
               (JS.str "hello", Client.Response 200 (Some Sample.firstReply));
               (JS.str "more", Client.Response 200 (Some Sample.secondReply))])
      by (repeat constructor; simpl; discriminate).
    destruct (Hevery Hturns _ (or_intror (or_introl eq_refl)))
      as (message & text & Hbody & Htext).
    eexists. exists message, text.
    split; [reflexivity|]. split; [exact Hbody|exact Htext].
Defined.

(** ** The scenario of the specification *)

(** The answer "Paris is the capital." with one citation of [docs/geo.txt]
    on the span 0..5: "Paris" is wrapped in the marker numbered 0, and the
    footer has the one entry [[1] geo.txt]. *)
Example paris_rendered :
  renderedWithCitations Sample.paris (Some [Sample.geo])
  = InnerHTML
      (markerOpen 0 ++ JS.str "Paris"
         ++ JS.str "<span class=" ++ [JS.dq] ++ JS.str "citation-tooltip"
         ++ [JS.dq] ++ JS.str ">"
         ++ JS.str "Source: geo.txt<br>Excerpt: "
         ++ JS.str "Paris is France's capital city...."
         ++ JS.str "</span></span>" ++ JS.str " is the capital.")
      (JS.str "<strong>Sources:</strong><br>[1] geo.txt<br>").
Proof. reflexivity. Qed.

Example paris_stripped :
  strip (highlightTracked Sample.paris [Sample.geo]) = Sample.paris
  /\ stripMarkup (highlight Sample.paris [Sample.geo]) = Sample.paris.
Proof. split; reflexivity. Qed.

(** The session of the scenario: the first request carries [null], the
    response brings "abc123", the second request carries it. *)
Example paris_session :
  map Client.body
    (snd (Client.session (Sample.idleApp "")
            [(JS.str "What is the capital of France?",
              Client.Response 200 (Some Sample.firstReply));
             (JS.str "How many people live there?",
              Client.Response 200 (Some Sample.secondReply))]))
  = [Client.bodyWith (JS.str "What is the capital of France?")
       (JS.str "null");
     Client.bodyWith (JS.str "How many people live there?")
       (JS.quote (JS.str "abc123"))].
Proof. reflexivity. Qed.

(** * Further properties of the script *)

(** ** Trimming and the prompt *)

Lemma trimStart_split (s : list ascii) :
  exists lead,
    s = lead ++ JS.trimStart s
    /\ forallb JS.isWhiteSpace lead = true
    /\ (forall c, hd_error (JS.trimStart s) = Some c ->
                  JS.isWhiteSpace c = false).
Proof.
  induction s as [|c s (lead & Hs & Hlead & Hhd)]; simpl.
  - exists []. repeat split. discriminate.
  - destruct (JS.isWhiteSpace c) eqn:Hc.
    + exists (c :: lead). simpl. rewrite Hc, Hlead.
      repeat split; [now f_equal|exact Hhd].
    + exists []. repeat split. simpl. intros c' H. now injection H as <-.
Qed.

Lemma trimStart_blank (s : list ascii) :
  forallb JS.isWhiteSpace s = true -> JS.trimStart s = [].
Proof.
  induction s as [|c s IH]; simpl; [reflexivity|].
  intros H. apply andb_prop in H as [Hc Hs]. rewrite Hc. now apply IH.
Qed.

(** The trimmed text is the text without a run of white space in front
    and one behind, and neither starts nor ends with white space. *)
Lemma trim_split (s : list ascii) :
  exists lead trail,
    s = lead ++ JS.trim s ++ trail
    /\ forallb JS.isWhiteSpace lead = true
    /\ forallb JS.isWhiteSpace trail = true
    /\ (forall c, hd_error (JS.trim s) = Some c ->
                  JS.isWhiteSpace c = false)
    /\ (forall c, hd_error (rev (JS.trim s)) = Some c ->
                  JS.isWhiteSpace c = false).
Proof.
  unfold JS.trim.
  destruct (trimStart_split s) as (lead & Hs & Hlead & Hhd).
  destruct (trimStart_split (rev (JS.trimStart s)))
    as (back & Ht & Hback & Hlast).
  set (t := JS.trimStart s) in *.
  set (u := JS.trimStart (rev t)) in *.
  assert (Ht' : t = rev u ++ rev back).
  { rewrite <- rev_app_distr, <- Ht. now rewrite rev_involutive. }
  exists lead, (rev back). repeat split.
  - now rewrite <- Ht'.
  - exact Hlead.
  - rewrite forallb_forall in *. intros c Hc. apply Hback.
    now apply in_rev.
  - intros c Hc. apply Hhd. rewrite Ht'.
    destruct (rev u); [discriminate|exact Hc].
  - intros c Hc. rewrite rev_involutive in Hc. now apply Hlast.
Qed.

Lemma trim_blank_iff (s : list ascii) :
  JS.trim s = [] <-> forallb JS.isWhiteSpace s = true.
Proof.
  split.
  - intros H. destruct (trim_split s) as (lead & trail & Hs & Hl & Ht & _).
    rewrite H in Hs. rewrite Hs. simpl. rewrite forallb_app.
    now rewrite Hl, Ht.
  - intros H. unfold JS.trim. now rewrite (trimStart_blank s H).
Qed.

(** X1.  A submission is given up without a request exactly when every
    code unit of the input is white space (the empty input included). *)
Theorem blank_input_iff_no_request
    (fetch : Client.Request -> Client.FetchResult) (app : Client.ChatApp) :
  (Client.sendMessage_submit app = None
   <-> forallb JS.isWhiteSpace (Client.messageInput_value app) = true)
  /\ (snd (Client.sendMessage fetch app) = []
      <-> forallb JS.isWhiteSpace (Client.messageInput_value app) = true).
Proof.
  rewrite <- trim_blank_iff. unfold Client.sendMessage.
  split; split; intros H.
  - unfold Client.sendMessage_submit in H.
    destruct (JS.trim (Client.messageInput_value app));
      [reflexivity|discriminate].
  - now apply ClientFacts.submit_none.
  - destruct (Client.sendMessage_submit app) as [[w r]|] eqn:Hsub;
      [discriminate|].
    unfold Client.sendMessage_submit in Hsub.
    destruct (JS.trim (Client.messageInput_value app));
      [reflexivity|discriminate].
  - now rewrite (ClientFacts.submit_none app H).
Qed.

(** X2.  When a request is issued, the prompt it carries and the message
    shown for the user are the input without the white space in front and
    behind: the prompt is not empty, neither starts nor ends with white
    space, and the input is white space, the prompt, white space. *)
Theorem prompt_is_trimmed_input (app waiting : Client.ChatApp)
    (request : Client.Request)
    (Hsubmit : Client.sendMessage_submit app = Some (waiting, request)) :
  exists lead message trail,
    Client.messageInput_value app = lead ++ message ++ trail
    /\ forallb JS.isWhiteSpace lead = true
    /\ forallb JS.isWhiteSpace trail = true
    /\ message <> []
    /\ (forall c, hd_error message = Some c -> JS.isWhiteSpace c = false)
    /\ (forall c, hd_error (rev message) = Some c ->
                  JS.isWhiteSpace c = false)
    /\ Client.body request
       = JS.stringify [(JS.str "prompt", JS.String message);
                       (JS.str "sessionId", Client.sessionId app)]
    /\ Client.chatMessages waiting
       = Client.chatMessages app
           ++ [{| Client.type := Client.user;
                  Client.contentDiv := TextContent message |}].
Proof.
  destruct (trim_split (Client.messageInput_value app))
    as (lead & trail & Hs & Hl & Ht & Hfirst & Hlast).
  exists lead, (JS.trim (Client.messageInput_value app)), trail.
  assert (Hne : JS.trim (Client.messageInput_value app) <> []).
  { intros H. rewrite (ClientFacts.submit_none app H) in Hsubmit.
    discriminate. }
  rewrite (ClientFacts.submit_some app Hne) in Hsubmit.
  injection Hsubmit as <- <-.
  repeat split; assumption.
Qed.

Lemma prompt_is_trimmed_input_witness :
  exists waiting request,
    Client.sendMessage_submit (Sample.idleApp "  What is Paris?  ")
    = Some (waiting, request)
    /\ Client.body request
       = Client.bodyWith (JS.str "What is Paris?") (JS.str "null").
Proof.
  destruct (prompt_is_trimmed_input
              (Sample.idleApp "  What is Paris?  ") _ _ eq_refl)
    as (lead & message & trail & _).
  do 2 eexists. split; reflexivity.
Defined.

(** ** One call and a whole session *)

Module SessionFacts.

Import Client.

(** What one call does, whatever the network brings back. *)
Lemma sendMessage_effect (fetch : Request -> FetchResult) (app : ChatApp) :
  JS.trim (messageInput_value app) <> [] ->
  exists request reply,
    snd (sendMessage fetch app) = [request]
    /\ url request = apiUrl app
    /\ method request = JS.str "POST"
    /\ contentType request = JS.str "application/json"
    /\ chatMessages (fst (sendMessage fetch app))
       = chatMessages app
           ++ [{| type := user;
                  contentDiv :=
                    TextContent (JS.trim (messageInput_value app)) |};
               {| type := bot; contentDiv := reply |}]
    /\ (reply = TextContent apology
        /\ failed (fetch request)
        /\ sessionId (fst (sendMessage fetch app)) = sessionId app
        \/ exists status data,
             fetch request = Response status (Some data)
             /\ ok status = true
             /\ sessionId (fst (sendMessage fetch app))
                = Data.sessionId data
             /\ (renderArrived (Data.response data) (Data.citations data)
                 = Some reply
                 \/ renderArrived (Data.response data) (Data.citations data)
                    = None
                    /\ reply = TextContent apology))
    /\ idle (fst (sendMessage fetch app))
    /\ messageInput_value (fst (sendMessage fetch app)) = []
    /\ apiUrl (fst (sendMessage fetch app)) = apiUrl app.
Proof.
  intros Hne. unfold sendMessage.
  rewrite (ClientFacts.submit_some app Hne). simpl snd. simpl fst.
  eexists.
  unfold sendMessage_resume.
  destruct (fetch _) as [|status [data|]] eqn:Hfetch.
  - eexists. repeat split;
      try (simpl; rewrite <- app_assoc; reflexivity).
    left. split; [reflexivity|]. split; [rewrite Hfetch; exact I|reflexivity].
  - destruct (ok status) eqn:Hok.
    + match goal with
      | |- context [sendMessage_try ?a _] =>
          destruct (ClientFacts.try_arrived a status data Hok)
            as [(rendered & Hrender & ->)|(Hrender & ->)]
      end.
      * exists rendered. repeat split;
          try (simpl; rewrite <- app_assoc; reflexivity).
        right. exists status, data. repeat split; try assumption.
        now left.
      * eexists. repeat split;
          try (simpl; rewrite <- app_assoc; reflexivity).
        right. exists status, data. repeat split; try assumption.
        right. now split.
    + unfold sendMessage_try. rewrite Hok.
      eexists. repeat split;
        try (simpl; rewrite <- app_assoc; reflexivity).
      left. split; [reflexivity|].
      split; [rewrite Hfetch; left; exact Hok|reflexivity].
  - unfold sendMessage_try.
    destruct (ok status); simpl; eexists; repeat split;
      try (simpl; rewrite <- app_assoc; reflexivity);
      (left; split; [reflexivity|];
       split; [rewrite Hfetch; right; reflexivity|reflexivity]).
Qed.

Lemma sendMessage_blank (fetch : Request -> FetchResult) (app : ChatApp) :
  JS.trim (messageInput_value app) = [] -> sendMessage fetch app = (app, []).
Proof.
  intros H. unfold sendMessage. now rewrite (ClientFacts.submit_none app H).
Qed.

Lemma session_app (turns later : list (list ascii * FetchResult)) :
  forall app : ChatApp,
    session app (turns ++ later)
    = (fst (session (fst (session app turns)) later),
       snd (session app turns)
         ++ snd (session (fst (session app turns)) later)).
Proof.
  induction turns as [|[text result] turns IH]; intros app.
  - simpl. now destruct (session app later).
  - rewrite <- app_comm_cons, !ClientFacts.session_cons, IH. simpl.
    now rewrite app_assoc.
Qed.

(** A turn that sends nothing or fails leaves the identifier alone. *)
Lemma keepsSession_turn (app : ChatApp) (text : list ascii)
    (result : FetchResult) :
  keepsSession (text, result) ->
  sessionId (fst (sendMessage (fun _ => result) (setValue text app)))
  = sessionId app.
Proof.
  intros [Hblank|Hfailed]; simpl in *.
  - now rewrite sendMessage_blank.
  - destruct (JS.trim text) eqn:Htrim.
    + now rewrite sendMessage_blank.
    + unfold sendMessage. rewrite ClientFacts.submit_some
        by (simpl; congruence).
      simpl. unfold sendMessage_resume.
      now rewrite (ClientFacts.try_failed _ _ Hfailed).
Qed.

Lemma keepsSession_session (turns : list (list ascii * FetchResult)) :
  Forall keepsSession turns ->
  forall app : ChatApp, sessionId (fst (session app turns)) = sessionId app.
Proof.
  induction 1 as [|[text result] turns Hturn _ IH]; intros app.
  - reflexivity.
  - rewrite ClientFacts.session_cons. simpl fst.
    now rewrite IH, keepsSession_turn.
Qed.

End SessionFacts.

(** X3.  Every call that issues a request settles, whatever the network
    brings back: the transcript gains the message of the user and exactly
    one message of the bot; both controls are enabled again, the spinner is
    hidden and the input is empty.  The message of the bot and the
    identifier are one of three: the round trip failed, the message is the
    apology and the identifier is kept; a body arrived with a good status,
    its identifier is stored as it is and the message is the rendered
    response; or such a body arrived, its identifier is stored, but
    rendering it throws (a citation without [source] or [content]) and the
    message is the apology. *)
Theorem every_request_answered_once
    (fetch : Client.Request -> Client.FetchResult) (app : Client.ChatApp)
    (Hprompt : JS.trim (Client.messageInput_value app) <> []) :
  exists request reply,
    snd (Client.sendMessage fetch app) = [request]
    /\ Client.chatMessages (fst (Client.sendMessage fetch app))
       = Client.chatMessages app
           ++ [{| Client.type := Client.user;
                  Client.contentDiv :=
                    TextContent (JS.trim (Client.messageInput_value app)) |};
               {| Client.type := Client.bot; Client.contentDiv := reply |}]
    /\ (reply = TextContent Client.apology
        /\ Client.failed (fetch request)
        /\ Client.sessionId (fst (Client.sendMessage fetch app))
           = Client.sessionId app
        \/ exists status data,
             fetch request = Client.Response status (Some data)
             /\ Client.ok status = true
             /\ Client.sessionId (fst (Client.sendMessage fetch app))
                = Data.sessionId data
             /\ (renderArrived (Data.response data) (Data.citations data)
                 = Some reply
                 \/ renderArrived (Data.response data) (Data.citations data)
                    = None
                    /\ reply = TextContent Client.apology))
    /\ Client.idle (fst (Client.sendMessage fetch app))
    /\ Client.messageInput_value (fst (Client.sendMessage fetch app)) = [].
Proof.
  destruct (SessionFacts.sendMessage_effect fetch app Hprompt)
    as (request & reply & Hreq & _ & _ & _ & Hchat & Hreply & Hidle
        & Hvalue & _).
  exists request, reply.
  split; [exact Hreq|]. split; [exact Hchat|]. split; [exact Hreply|].
  split; [exact Hidle|exact Hvalue].
Qed.

Lemma every_request_answered_once_witness :
  (Client.idle
     (fst (Client.sendMessage
             (fun _ => Client.Response 200 (Some Sample.firstReply))
             (Sample.idleApp "What is the capital of France?")))
   /\ length
        (Client.chatMessages
           (fst (Client.sendMessage
                   (fun _ => Client.Response 200 (Some Sample.firstReply))
                   (Sample.idleApp "What is the capital of France?"))))
      = 2%nat)
  /\ (Client.idle
        (fst (Client.sendMessage
                (fun _ => Client.Response 200 (Some Sample.sourcelessReply))
                (Sample.idleApp "What is the capital of France?")))
      /\ Client.chatMessages
           (fst (Client.sendMessage
                   (fun _ => Client.Response 200 (Some Sample.sourcelessReply))
                   (Sample.idleApp "What is the capital of France?")))
         = [{| Client.type := Client.user;
               Client.contentDiv :=
                 TextContent (JS.str "What is the capital of France?") |};
            {| Client.type := Client.bot;
               Client.contentDiv := TextContent Client.apology |}]
      /\ Client.sessionId
           (fst (Client.sendMessage
                   (fun _ => Client.Response 200 (Some Sample.sourcelessReply))
                   (Sample.idleApp "What is the capital of France?")))
         = JS.String (JS.str "xyz789")).
Proof.
  split.
  - destruct (every_request_answered_once
                (fun _ => Client.Response 200 (Some Sample.firstReply))
                (Sample.idleApp "What is the capital of France?")
                ltac:(discriminate))
      as (request & reply & _ & Hchat & _ & Hidle & _).
    split; [exact Hidle|]. rewrite Hchat. reflexivity.
  - destruct (every_request_answered_once
                (fun _ => Client.Response 200 (Some Sample.sourcelessReply))
                (Sample.idleApp "What is the capital of France?")
                ltac:(discriminate))
      as (request & reply & _ & Hchat & Hreply & Hidle & _).
    split; [exact Hidle|]. split; [|reflexivity].
    destruct Hreply
      as [(-> & _)|(status & data & Hfetch & _ & _ & [Hr|(_ & ->)])];
      [exact Hchat| |exact Hchat].
    injection Hfetch as <- <-. discriminate Hr.
Defined.

(** X4.  Over a whole session the transcript only grows, by two messages
    for every request issued; every message of the user in it is set as
    text, never as markup; the endpoint stays the same; and a client that
    was idle is idle at the end. *)
Theorem session_transcript_grows
    (turns : list (list ascii * Client.FetchResult))
    (app : Client.ChatApp) :
  exists added,
    Client.chatMessages (fst (Client.session app turns))
    = Client.chatMessages app ++ added
    /\ length added = (2 * length (snd (Client.session app turns)))%nat
    /\ Forall (fun m => Client.type m = Client.user -> isText m) added
    /\ Client.apiUrl (fst (Client.session app turns)) = Client.apiUrl app
    /\ (Client.idle app -> Client.idle (fst (Client.session app turns))).
Proof.
  revert app. induction turns as [|[text result] turns IH]; intros app.
  - exists []. simpl. rewrite app_nil_r.
    split; [reflexivity|]. split; [reflexivity|]. split; [constructor|].
    split; [reflexivity|]. auto.
  - rewrite ClientFacts.session_cons. simpl fst. simpl snd.
    destruct (JS.trim text) eqn:Htrim.
    + rewrite (SessionFacts.sendMessage_blank _ (Client.setValue text app))
        by exact Htrim.
      simpl fst. simpl snd.
      destruct (IH (Client.setValue text app))
        as (added & Hchat & Hlen & Htext & Hurl & Hidle).
      exists added.
      split; [exact Hchat|]. split; [exact Hlen|]. split; [exact Htext|].
      split; [exact Hurl|]. intros H. apply Hidle. exact H.
    + destruct (SessionFacts.sendMessage_effect (fun _ => result)
                  (Client.setValue text app))
        as (request & reply & Hreq & _ & _ & _ & Hchat1 & _ & Hidle1
            & _ & Hurl1); [simpl; congruence|].
      set (app1 := fst (Client.sendMessage (fun _ => result)
                          (Client.setValue text app))) in *.
      destruct (IH app1) as (added & Hchat & Hlen & Htext & Hurl & Hidle).
      rewrite Hreq.
      eexists. split; [|split; [|split; [|split]]].
      * rewrite Hchat, Hchat1. simpl Client.chatMessages.
        rewrite <- app_assoc. reflexivity.
      * simpl. rewrite Hlen. lia.
      * constructor; [intros _; eexists; reflexivity|].
        constructor; [discriminate|exact Htext].
      * now rewrite Hurl, Hurl1.
      * intros _. now apply Hidle.
Qed.

(** X5.  A failed round trip or an empty submission does not end the
    session: after a successful response, and any number of turns that
    send nothing or fail, the client still holds the identifier of that
    response, and the next request carries it. *)
Theorem session_survives_failures (app : Client.ChatApp)
    (before middle : list (list ascii * Client.FetchResult))
    (text text' : list ascii) (status : Z) (data : Data.t)
    (result' : Client.FetchResult)
    (Htext : JS.trim text <> [])
    (Hok : Client.ok status = true)
    (Hmiddle : Forall keepsSession middle)
    (Htext' : JS.trim text' <> []) :
  Client.sessionId
    (fst (Client.session app
            (before ++ (text, Client.Response status (Some data)) :: middle)))
  = Data.sessionId data
  /\ exists request,
       snd (Client.session app
              ((before ++ (text, Client.Response status (Some data))
                            :: middle)
                 ++ [(text', result')]))
       = snd (Client.session app
                (before ++ (text, Client.Response status (Some data))
                             :: middle))
           ++ [request]
       /\ Client.body request
          = JS.stringify
              [(JS.str "prompt", JS.String (JS.trim text'));
               (JS.str "sessionId", Data.sessionId data)].
Proof.
  assert (Hid : Client.sessionId
                  (fst (Client.session app
                          (before
                             ++ (text, Client.Response status (Some data))
                                  :: middle)))
                = Data.sessionId data).
  { rewrite SessionFacts.session_app. cbn [fst].
    rewrite ClientFacts.session_cons. cbn [fst].
    rewrite (SessionFacts.keepsSession_session middle Hmiddle).
    now destruct (ClientFacts.successful_turn
                    (fst (Client.session app before)) text status data
                    Htext Hok) as (_ & _ & _ & H). }
  split; [exact Hid|].
  rewrite (SessionFacts.session_app
             (before ++ (text, Client.Response status (Some data)) :: middle)).
  cbn [snd].
  set (held := fst (Client.session app
                      (before ++ (text, Client.Response status (Some data))
                                   :: middle))) in *.
  rewrite ClientFacts.session_cons. cbn [snd]. rewrite app_nil_r.
  destruct (ClientFacts.sendMessage_requests (fun _ => result')
              (Client.setValue text' held))
    as [[Hnone _]|(request & Hone & Hbody)].
  - exfalso.
    unfold Client.sendMessage in Hnone.
    rewrite ClientFacts.submit_some in Hnone by exact Htext'.
    discriminate.
  - exists request. rewrite Hone. split; [reflexivity|].
    rewrite Hbody. simpl. now rewrite Hid.
Qed.

Lemma session_survives_failures_witness :
  exists request,
    snd (Client.session (Sample.idleApp "")
           [(JS.str "first", Client.Response 200 (Some Sample.firstReply));
            (JS.str "   ", Client.Rejected);
            (JS.str "second", Client.Response 503 None);
            (JS.str "third", Client.Rejected)])
    = snd (Client.session (Sample.idleApp "")
             [(JS.str "first", Client.Response 200 (Some Sample.firstReply));
              (JS.str "   ", Client.Rejected);
              (JS.str "second", Client.Response 503 None)])
        ++ [request]
    /\ Client.body request
       = Client.bodyWith (JS.str "third") (JS.quote (JS.str "abc123")).
Proof.
  destruct (session_survives_failures (Sample.idleApp "") []
              [(JS.str "   ", Client.Rejected);
               (JS.str "second", Client.Response 503 None)]
              (JS.str "first") (JS.str "third") 200 Sample.firstReply
              Client.Rejected
              ltac:(discriminate) eq_refl
              ltac:(repeat constructor; right; simpl; now left)
              ltac:(discriminate))
    as (_ & request & Hreq & Hbody).
  exists request. split; [exact Hreq|]. rewrite Hbody. reflexivity.
Defined.

(** X6.  Once the configuration has loaded, every request of the session
    is a POST of JSON to the configured address followed by [kb]. *)
Theorem requests_go_to_endpoint (configApiUrl : list ascii)
    (app : Client.ChatApp)
    (turns : list (list ascii * Client.FetchResult)) :
  Forall (fun request =>
            Client.url request = JS.String (configApiUrl ++ JS.str "kb")
            /\ Client.method request = JS.str "POST"
            /\ Client.contentType request = JS.str "application/json")
         (snd (Client.session (Client.init (Some configApiUrl) app) turns)).
Proof.
  assert (H : forall a : Client.ChatApp,
             Forall (fun request =>
                       Client.url request = Client.apiUrl a
                       /\ Client.method request = JS.str "POST"
                       /\ Client.contentType request
                          = JS.str "application/json")
                    (snd (Client.session a turns))).
  { induction turns as [|[text result] turns IH]; intros a.
    - constructor.
    - rewrite ClientFacts.session_cons. simpl snd.
      destruct (JS.trim text) eqn:Htrim.
      + rewrite (SessionFacts.sendMessage_blank _ (Client.setValue text a))
          by exact Htrim.
        simpl. apply (IH (Client.setValue text a)).
      + destruct (SessionFacts.sendMessage_effect (fun _ => result)
                    (Client.setValue text a))
          as (request & reply & Hreq & Hurl & Hm & Hc & _ & _ & _ & _
              & Hkeep); [simpl; congruence|].
        rewrite Hreq. simpl. constructor.
        * now repeat split.
        * specialize (IH (fst (Client.sendMessage (fun _ => result)
                                 (Client.setValue text a)))).
          now rewrite Hkeep in IH. }
  apply (H (Client.init (Some configApiUrl) app)).
Qed.

(** ** Events *)

Module PageFacts.

Import Page.

Lemma run_cons (fetch : Client.Request -> Client.FetchResult)
    (text : list ascii) (e : Event) (rest : list (list ascii * Event))
    (page : t) :
  run fetch ((text, e) :: rest) page
  = (fst (run fetch rest
            (fst (fst (dispatch fetch e
                         (withApp (Client.setValue text (app page)) page))))),
     snd (fst (dispatch fetch e
                 (withApp (Client.setValue text (app page)) page)))
       ++ snd (run fetch rest
                 (fst (fst (dispatch fetch e
                              (withApp (Client.setValue text (app page))
                                 page)))))).
Proof.
  simpl. destruct (dispatch _ _ _) as [[page1 requests] prevented]. simpl.
  now destruct (run fetch rest page1).
Qed.

(** Without listeners an event does nothing. *)
Lemma dispatch_deaf (fetch : Client.Request -> Client.FetchResult)
    (e : Event) (page : t) :
  clickListener page = false -> keypressListener page = false ->
  dispatch fetch e page = (page, [], false).
Proof.
  intros Hc Hk. destruct e; simpl; now rewrite ?Hc, ?Hk.
Qed.

(** An event that does not submit does nothing. *)
Lemma dispatch_idle_event (fetch : Client.Request -> Client.FetchResult)
    (e : Event) (page : t) :
  submits e = false -> dispatch fetch e page = (page, [], false).
Proof.
  destruct e as [|key shiftKey]; [discriminate|].
  unfold submits, dispatch. intros H.
  destruct (keypressListener page); [|reflexivity].
  destruct (list_eq_dec ascii_dec key (JS.str "Enter")); [|reflexivity].
  now rewrite H.
Qed.

(** An event depends on the page only up to the text of the input, once
    the text has been typed. *)
Lemma dispatch_sameButInput (fetch : Client.Request -> Client.FetchResult)
    (text : list ascii) (e : Event) (p q : t) :
  sameButInput p q ->
  dispatch fetch e (withApp (Client.setValue text (app p)) p)
  = dispatch fetch e (withApp (Client.setValue text (app q)) q).
Proof.
  intros (Hc & Hk & Happ). unfold withApp. now rewrite Hc, Hk, (Happ text).
Qed.

End PageFacts.

(** X7.  When the configuration does not load, the script shows one
    message and registers no listener: whatever is typed, clicked or
    keyed afterwards, no request is ever issued, the transcript holds just
    that message more, and the controls stay as the page had them. *)
Theorem unconfigured_page_sends_nothing
    (fetch : Client.Request -> Client.FetchResult) (app : Client.ChatApp)
    (events : list (list ascii * Page.Event)) :
  snd (Page.run fetch events (Page.init None (Page.loaded app))) = []
  /\ Client.chatMessages
       (Page.app (fst (Page.run fetch events
                         (Page.init None (Page.loaded app)))))
     = Client.chatMessages app
         ++ [{| Client.type := Client.bot;
                Client.contentDiv :=
                  TextContent
                    (JS.str "Error loading configuration. "
                       ++ JS.str "Please refresh the page.") |}]
  /\ Client.apiUrl
       (Page.app (fst (Page.run fetch events
                         (Page.init None (Page.loaded app)))))
     = Client.apiUrl app
  /\ Client.messageInput_disabled
       (Page.app (fst (Page.run fetch events
                         (Page.init None (Page.loaded app)))))
     = Client.messageInput_disabled app
  /\ Client.sendButton_disabled
       (Page.app (fst (Page.run fetch events
                         (Page.init None (Page.loaded app)))))
     = Client.sendButton_disabled app.
Proof.
  assert (H : forall page : Page.t,
             Page.clickListener page = false ->
             Page.keypressListener page = false ->
             snd (Page.run fetch events page) = []
             /\ Client.setValue [] (Page.app (fst (Page.run fetch events page)))
                = Client.setValue [] (Page.app page)).
  { induction events as [|[text e] events IH]; intros page Hc Hk.
    - now split.
    - rewrite PageFacts.run_cons, PageFacts.dispatch_deaf by assumption.
      cbn [fst snd].
      destruct (IH (Page.withApp (Client.setValue text (Page.app page)) page)
                  Hc Hk) as [Hreq Hsame].
      split; [exact Hreq|]. rewrite Hsame. reflexivity. }
  destruct (H (Page.init None (Page.loaded app)) eq_refl eq_refl)
    as [Hreq Hsame].
  split; [exact Hreq|].
  repeat split.
  - exact (f_equal Client.chatMessages Hsame).
  - exact (f_equal Client.apiUrl Hsame).
  - exact (f_equal Client.messageInput_disabled Hsame).
  - exact (f_equal Client.sendButton_disabled Hsame).
Qed.

(** X8.  Keys other than Enter, and Enter with Shift, do not take part in
    the conversation: a run of events issues the same requests and leaves
    the same transcript and the same identifier as the run of its clicks
    and plain Enter keys alone. *)
Theorem only_submitting_events_count
    (fetch : Client.Request -> Client.FetchResult)
    (events : list (list ascii * Page.Event)) (page : Page.t) :
  snd (Page.run fetch events page)
  = snd (Page.run fetch (filter (fun te => submits (snd te)) events) page)
  /\ Client.chatMessages (Page.app (fst (Page.run fetch events page)))
     = Client.chatMessages
         (Page.app
            (fst (Page.run fetch
                    (filter (fun te => submits (snd te)) events) page)))
  /\ Client.sessionId (Page.app (fst (Page.run fetch events page)))
     = Client.sessionId
         (Page.app
            (fst (Page.run fetch
                    (filter (fun te => submits (snd te)) events) page))).
Proof.
  assert (H : forall p q : Page.t,
             sameButInput p q ->
             snd (Page.run fetch events p)
             = snd (Page.run fetch
                      (filter (fun te => submits (snd te)) events) q)
             /\ sameButInput
                  (fst (Page.run fetch events p))
                  (fst (Page.run fetch
                          (filter (fun te => submits (snd te)) events) q))).
  { induction events as [|[text e] events IH]; intros p q Hpq.
    - simpl. now split.
    - simpl filter. destruct (submits e) eqn:He.
      + rewrite !PageFacts.run_cons.
        rewrite (PageFacts.dispatch_sameButInput fetch text e p q Hpq).
        set (next := fst (fst (Page.dispatch fetch e _))).
        assert (Hnext : sameButInput next next) by (repeat split).
        destruct (IH next next Hnext) as [Hreq Hsame].
        split; [now rewrite Hreq|exact Hsame].
      + rewrite PageFacts.run_cons, PageFacts.dispatch_idle_event
          by exact He.
        cbn [fst snd]. apply IH.
        destruct Hpq as (Hc & Hk & Happ).
        split; [exact Hc|]. split; [exact Hk|].
        intros text0. exact (Happ text0). }
  assert (Hpage : sameButInput page page) by (repeat split).
  destruct (H page page Hpage) as [Hreq (_ & _ & Hsame)].
  split; [exact Hreq|]. split.
  - exact (f_equal Client.chatMessages (Hsame [])).
  - exact (f_equal Client.sessionId (Hsame [])).
Qed.

(** ** The body of a request determines what was sent *)

Lemma readString_quoteUnit (c : ascii) (tail : list ascii) :
  readString (JS.quoteUnit c ++ tail)
  = match readString tail with
    | Some (text, after) => Some (c :: text, after)
    | None => None
    end.
Proof.
  destruct c as [[] [] [] [] [] [] [] []]; reflexivity.
Qed.

Lemma readString_quoted (s rest : list ascii) :
  readString (flat_map JS.quoteUnit s ++ JS.dq :: rest) = Some (s, rest).
Proof.
  induction s as [|c s IH]; [reflexivity|].
  simpl flat_map. rewrite <- app_assoc, readString_quoteUnit.
  now rewrite IH.
Qed.

Lemma dropPrefix_app (prefix rest : list ascii) :
  dropPrefix prefix (prefix ++ rest) = Some rest.
Proof.
  induction prefix as [|p prefix IH]; simpl; [reflexivity|].
  now rewrite Ascii.eqb_refl.
Qed.

(** Reading a body back gives the prompt and the identifier it was
    written from. *)
Lemma readBody_stringify (message : list ascii) (id : JS.Value) :
  readBody (JS.stringify [(JS.str "prompt", JS.String message);
                          (JS.str "sessionId", id)])
  = Some (message, id).
Proof.
  rewrite ClientFacts.stringify_body. unfold readBody.
  set (open := JS.str "{" ++ JS.quote (JS.str "prompt") ++ JS.str ":"
                 ++ [JS.dq]).
  set (field := JS.str "," ++ JS.quote (JS.str "sessionId") ++ JS.str ":").
  destruct id as [| |id].
  - replace (JS.str "{" ++ JS.quote (JS.str "prompt") ++ JS.str ":"
               ++ JS.quote message ++ JS.str "}")
      with (open ++ flat_map JS.quoteUnit message ++ JS.dq :: JS.str "}")
      by (unfold open, JS.quote; simpl; now rewrite <- !app_assoc).
    rewrite dropPrefix_app, readString_quoted. reflexivity.
  - replace (Client.bodyWith message (JS.str "null"))
      with (open ++ flat_map JS.quoteUnit message
              ++ JS.dq :: field ++ JS.str "null}")
      by (unfold Client.bodyWith, open, field, JS.quote; simpl;
          now rewrite <- !app_assoc).
    rewrite dropPrefix_app, readString_quoted, dropPrefix_app. reflexivity.
  - replace (Client.bodyWith message (JS.quote id))
      with (open ++ flat_map JS.quoteUnit message
              ++ JS.dq :: field
              ++ JS.dq :: flat_map JS.quoteUnit id ++ JS.dq :: JS.str "}")
      by (unfold Client.bodyWith, open, field, JS.quote; simpl;
          now rewrite <- !app_assoc).
    rewrite dropPrefix_app, readString_quoted, dropPrefix_app.
    simpl. now rewrite readString_quoted.
Qed.

(** X9.  The body of a request determines the prompt and the identifier
    of the session: two bodies are equal only when both are.  Whatever the
    prompt holds, quotes and backslashes included, it cannot pass for
    another prompt or for another identifier. *)
Theorem body_determines_prompt_and_session (message message' : list ascii)
    (id id' : JS.Value)
    (Hbody : JS.stringify [(JS.str "prompt", JS.String message);
                           (JS.str "sessionId", id)]
             = JS.stringify [(JS.str "prompt", JS.String message');
                             (JS.str "sessionId", id')]) :
  message = message' /\ id = id'.
Proof.
  pose proof (readBody_stringify message id) as H.
  rewrite Hbody, readBody_stringify in H.
  injection H as -> ->. now split.
Qed.

Lemma body_determines_prompt_and_session_witness :
  JS.stringify [(JS.str "prompt", JS.String (JS.str "a\b"));
                (JS.str "sessionId", JS.null)]
  = Client.bodyWith (JS.str "a\b") (JS.str "null")
  /\ JS.str "a\b" = JS.str "a\b" /\ JS.null = JS.null.
Proof.
  split; [reflexivity|].
  apply (body_determines_prompt_and_session (JS.str "a\b") (JS.str "a\b")
           JS.null JS.null).
  reflexivity.
Defined.

(** ** The file name of a source *)

(** The last piece of a split is what follows the last separator. *)
Lemma split_last (sep : ascii) (s : list ascii) :
  exists prefix,
    s = prefix ++ JS.pop (JS.split sep s)
    /\ ~ In sep (JS.pop (JS.split sep s))
    /\ JS.split sep s <> []
    /\ (length (JS.split sep s) = 1%nat -> prefix = [])
    /\ ((1 < length (JS.split sep s))%nat ->
        exists dir, prefix = dir ++ [sep]).
Proof.
  unfold JS.pop. induction s as [|c s IH].
  - exists []. simpl. repeat split; auto; try discriminate. lia.
  - destruct IH as (prefix & Hs & Hsep & Hne & Hone & Hmany).
    simpl JS.split. destruct (Ascii.eqb c sep) eqn:Hc.
    + apply Ascii.eqb_eq in Hc. subst c.
      exists (sep :: prefix).
      destruct (JS.split sep s) as [|piece pieces] eqn:Hsplit;
        [congruence|].
      change (last ([] :: piece :: pieces) [])
        with (last (piece :: pieces) []).
      repeat split.
      * simpl. now f_equal.
      * exact Hsep.
      * discriminate.
      * simpl. discriminate.
      * intros _. destruct pieces as [|piece' pieces].
        -- rewrite (Hone eq_refl). now exists [].
        -- destruct Hmany as [dir ->]; [simpl; lia|].
           now exists (sep :: dir).
    + apply Ascii.eqb_neq in Hc.
      destruct (JS.split sep s) as [|piece pieces] eqn:Hsplit;
        [congruence|].
      destruct pieces as [|piece' pieces].
      * exists []. simpl in *. rewrite (Hone eq_refl) in Hs. simpl in Hs.
        repeat split; try discriminate.
        -- now f_equal.
        -- intros [H|H]; [congruence|contradiction].
        -- lia.
      * exists (c :: prefix).
        change (last ((c :: piece) :: piece' :: pieces) [])
          with (last (piece :: piece' :: pieces) []).
        repeat split.
        -- simpl. now f_equal.
        -- exact Hsep.
        -- discriminate.
        -- simpl. discriminate.
        -- intros _. destruct Hmany as [dir ->]; [simpl; lia|].
           now exists (c :: dir).
Qed.

(** X10.  The name shown for a source, in the tooltip and in the footer,
    is what follows its last slash, the whole source when it has none: it
    holds no slash, and the source is that name, alone or after a
    directory part that ends with a slash. *)
Theorem sourceFile_is_last_segment (citation : Citation) :
  ~ In "/"%char (sourceFile citation)
  /\ (source citation = sourceFile citation
      \/ exists dir,
           source citation = dir ++ ["/"%char] ++ sourceFile citation)
  /\ (~ In "/"%char (source citation) ->
      sourceFile citation = source citation).
Proof.
  unfold sourceFile.
  destruct (split_last "/" (source citation))
    as (prefix & Hs & Hsep & Hne & Hone & Hmany).
  assert (Hcases : prefix = [] \/ exists dir, prefix = dir ++ ["/"%char]).
  { destruct (JS.split "/" (source citation)) as [|p [|q ps]];
      [congruence|left; now apply Hone|right; apply Hmany; simpl; lia]. }
  split; [exact Hsep|]. split.
  - destruct Hcases as [->|[dir ->]].
    + now left.
    + right. exists dir. now rewrite <- app_assoc in Hs.
  - intros Hno. destruct Hcases as [->|[dir ->]].
    + now symmetry.
    + exfalso. apply Hno. rewrite Hs, <- app_assoc.
      apply in_or_app. right. now left.
Qed.

(** ** When nothing is wrapped, and when the order does not matter *)

Lemma splice_grows (p : list ascii) (citation : Citation) (index : nat) :
  validSpan (length p) citation = true ->
  (length p < length (splice (fun c => c) p citation index))%nat.
Proof.
  intros Hv. rewrite splice_cases, Hv.
  destruct (validSpan_bounds _ _ Hv) as (sp & -> & H1 & H2).
  rewrite <- (substring_partition p (start sp) (end_ sp)) at 1 by lia.
  rewrite !length_app, !length_map. unfold markerOpen.
  rewrite !length_app. simpl. lia.
Qed.

Lemma forEach_length (l : list Citation) (index : nat) (p : list ascii) :
  (length p
   <= length (JS.forEach_from (splice (fun c => c)) l index p))%nat.
Proof.
  apply (forEach_from_invariant (splice (fun c => c))
           (fun q => (length p <= length q)%nat)); [|lia].
  intros acc x i Hacc.
  pose proof (splice_length (fun c => c) acc x i). lia.
Qed.

Lemma forEach_nothing_valid (content : list ascii) (l : list Citation) :
  Forall (fun c => validSpan (length content) c = false) l ->
  forall index,
    JS.forEach_from (splice (fun c => c)) l index content = content.
Proof.
  induction 1 as [|c l Hc _ IH]; intros index; simpl; [reflexivity|].
  rewrite splice_cases, Hc. apply IH.
Qed.

(** X11.  The string handed to [innerHTML] is the answer itself exactly
    when no citation of the list has a span that is valid for the answer;
    a list without such a citation still makes the script set the answer
    as markup, with the footer. *)
Theorem unchanged_iff_no_valid_span (content : list ascii)
    (citations : list Citation) :
  (highlight content citations = content
   <-> forallb (fun c => negb (validSpan (length content) c)) citations
       = true)
  /\ (forall first rest,
        citations = first :: rest ->
        forallb (fun c => negb (validSpan (length content) c)) citations
        = true ->
        renderedWithCitations content (Some citations)
        = InnerHTML content (citationsContainer citations)).
Proof.
  assert (Hback : forallb (fun c => negb (validSpan (length content) c))
                    citations = true ->
                  highlight content citations = content).
  { intros H. unfold highlight, processedContent, JS.forEach.
    apply forEach_nothing_valid. apply Forall_forall. intros c Hc.
    apply negb_true_iff.
    apply (proj1 (forallb_forall _ _) H).
    eapply Permutation_in;
      [apply Permutation_sym, sort_permutation|exact Hc]. }
  split; [split; [|exact Hback]|].
  - intros Hsame.
    destruct (forallb _ citations) eqn:Hall; [reflexivity|exfalso].
    assert (Hex : exists c, In c citations
                            /\ validSpan (length content) c = true).
    { clear Hsame Hback. induction citations as [|c cs IH];
        [discriminate|].
      simpl in Hall. destruct (validSpan (length content) c) eqn:Hc.
      - exists c. split; [now left|exact Hc].
      - simpl in Hall. destruct (IH Hall) as (c' & Hin & Hv).
        exists c'. split; [now right|exact Hv]. }
    destruct Hex as (c & Hin & Hv).
    apply (Permutation_in _ (sort_permutation compareCitations citations))
      in Hin.
    destruct (in_split _ _ Hin) as (l1 & l2 & Hsplit).
    unfold highlight, processedContent, JS.forEach, sortedCitations in Hsame.
    rewrite Hsplit, forEach_from_app in Hsame.
    pose proof (forEach_length l1 0 content) as H1.
    set (p := JS.forEach_from (splice (fun c => c)) l1 0 content) in *.
    set (k := (0 + length l1)%nat) in *.
    change (JS.forEach_from (splice (fun c => c)) l2 (S k)
              (splice (fun c => c) p c k) = content) in Hsame.
    pose proof (splice_grows p c k (validSpan_mono _ _ _ H1 Hv)) as H2.
    pose proof (forEach_length l2 (S k) (splice (fun c => c) p c k)) as H3.
    rewrite Hsame in H3. lia.
  - intros first rest -> Hall. unfold renderedWithCitations. simpl.
    f_equal. apply (Hback Hall).
Qed.

Lemma unchanged_iff_no_valid_span_witness :
  renderedWithCitations Sample.six (Some [Sample.bare; Sample.beyond])
  = InnerHTML Sample.six (citationsContainer [Sample.bare; Sample.beyond]).
Proof.
  apply (proj2 (unchanged_iff_no_valid_span Sample.six
                  [Sample.bare; Sample.beyond])
           Sample.bare [Sample.beyond]); reflexivity.
Defined.

Lemma descending_nodup_strict (l : list Citation) :
  StronglySorted (fun a b => spanStart a >= spanStart b) l ->
  NoDup (map spanStart l) ->
  StronglySorted (fun a b => spanStart a > spanStart b) l.
Proof.
  induction 1 as [|x l Hs IH Hx]; intros Hnd; constructor.
  - apply IH. now inversion Hnd.
  - inversion Hnd as [|? ? Hnotin _]; subst.
    apply Forall_forall. intros y Hy.
    pose proof (proj1 (Forall_forall _ _) Hx y Hy) as Hge.
    assert (spanStart x <> spanStart y).
    { intros Heq. apply Hnotin. rewrite Heq. now apply in_map. }
    simpl in Hge. lia.
Qed.

(** Two strictly descending arrangements of the same citations are the
    same list. *)
Lemma strict_descending_unique (l1 l2 : list Citation) :
  StronglySorted (fun a b => spanStart a > spanStart b) l1 ->
  StronglySorted (fun a b => spanStart a > spanStart b) l2 ->
  Permutation l1 l2 -> l1 = l2.
Proof.
  intros H1. revert l2.
  induction H1 as [|x l1 H1 IH Hx]; intros l2 H2 Hperm.
  - now apply Permutation_nil in Hperm.
  - destruct l2 as [|y l2];
      [now apply Permutation_sym, Permutation_nil in Hperm|].
    inversion H2 as [|? ? H2' Hy]; subst.
    assert (Hxy : x = y).
    { assert (Hin1 : In x (y :: l2))
        by (eapply Permutation_in; [exact Hperm|now left]).
      assert (Hin2 : In y (x :: l1))
        by (eapply Permutation_in;
            [apply Permutation_sym, Hperm|now left]).
      destruct Hin1 as [->|Hin1]; [reflexivity|].
      destruct Hin2 as [->|Hin2]; [reflexivity|].
      pose proof (proj1 (Forall_forall _ _) Hy x Hin1).
      pose proof (proj1 (Forall_forall _ _) Hx y Hin2).
      simpl in *. lia. }
    subst y. f_equal. apply IH; [exact H2'|].
    now apply Permutation_cons_inv in Hperm.
Qed.

(** X12.  When every citation carries a span and no two spans start at
    the same code unit, the inline markup does not depend on the order in
    which the citations arrive: two lists with the same citations are
    sorted into the same array and give the same string (the footer keeps
    the order of arrival). *)
Theorem inline_markup_ignores_arrival_order (content : list ascii)
    (citations citations' : list Citation)
    (Hperm : Permutation citations citations')
    (Hall : allSpans citations = true)
    (Hdistinct : NoDup (map spanStart citations)) :
  sortedCitations citations = sortedCitations citations'
  /\ highlight content citations = highlight content citations'.
Proof.
  assert (Hall' : allSpans citations' = true)
    by (eapply forallb_permutation; [exact Hperm|exact Hall]).
  assert (Hsorted : sortedCitations citations = sortedCitations citations').
  { apply strict_descending_unique.
    - apply descending_nodup_strict;
        [now apply sortedCitations_descending|].
      eapply Permutation_NoDup; [|exact Hdistinct].
      apply Permutation_map, sort_permutation.
    - apply descending_nodup_strict;
        [now apply sortedCitations_descending|].
      eapply Permutation_NoDup; [|exact Hdistinct].
      apply Permutation_map.
      eapply perm_trans; [exact Hperm|apply sort_permutation].
    - eapply perm_trans;
        [apply Permutation_sym, sort_permutation|].
      eapply perm_trans; [exact Hperm|apply sort_permutation]. }
  split; [exact Hsorted|].
  unfold highlight, processedContent. now rewrite Hsorted.
Qed.

Lemma inline_markup_ignores_arrival_order_witness :
  highlight Sample.twenty [Sample.low; Sample.high]
  = highlight Sample.twenty [Sample.high; Sample.low].
Proof.
  apply (inline_markup_ignores_arrival_order Sample.twenty
           [Sample.low; Sample.high] [Sample.high; Sample.low]).
  - apply perm_swap.
  - reflexivity.
  - repeat constructor; simpl; intuition discriminate.
Defined.

(** ** Two citations of the same span *)

Lemma firstn_exact {T : Type} (l rest : list T) :
  firstn (length l) (l ++ rest) = l.
Proof.
  rewrite firstn_app, firstn_all, Nat.sub_diag. simpl. apply app_nil_r.
Qed.

Lemma skipn_exact {T : Type} (l rest : list T) :
  skipn (length l) (l ++ rest) = rest.
Proof.
  rewrite skipn_app, skipn_all, Nat.sub_diag. reflexivity.
Qed.

(** X13.  Two citations that carry the same valid span, of at most 52
    code units, are not both wrapped around the cited text: the first is,
    and the second, which finds the opening tag of the first marker where
    the text was, is wrapped around the beginning of that tag, which it
    cuts in two. *)
Theorem same_span_twice_cuts_the_tag (content : list ascii)
    (first second : Citation) (sp : Span)
    (Hfirst : span first = Some sp)
    (Hsecond : span second = Some sp)
    (Hvalid : validSpan (length content) first = true)
    (Hshort : end_ sp - start sp <= 52) :
  highlight content [first; second]
  = JS.substring content 0 (start sp)
      ++ markerOpen 1
      ++ firstn (Z.to_nat (end_ sp - start sp)) (markerOpen 0)
      ++ markerClose second
      ++ skipn (Z.to_nat (end_ sp - start sp)) (markerOpen 0)
      ++ JS.substring content (start sp) (end_ sp)
      ++ markerClose first
      ++ JS.substring_from content (end_ sp).
Proof.
  pose proof Hvalid as Hb. unfold validSpan in Hb. rewrite Hfirst in Hb.
  apply andb_prop in Hb as [Hb H3]. apply andb_prop in Hb as [H1 H2].
  apply Z.leb_le in H1, H3. apply Z.ltb_lt in H2.
  assert (Hsorted : sortedCitations [first; second] = [first; second]).
  { unfold sortedCitations. simpl. unfold compareCitations.
    rewrite Hfirst, Hsecond. now rewrite Z.sub_diag. }
  unfold highlight, processedContent, JS.forEach. rewrite Hsorted.
  simpl JS.forEach_from.
  rewrite (splice_cases _ content first), Hvalid, Hfirst, !map_id.
  set (B := JS.substring content 0 (start sp)).
  set (C := JS.substring content (start sp) (end_ sp)).
  set (A := JS.substring_from content (end_ sp)).
  assert (HB : length B = Z.to_nat (start sp)).
  { unfold B. rewrite substring_prefix, length_firstn by lia. lia. }
  assert (HC : length C = Z.to_nat (end_ sp - start sp)).
  { unfold C. rewrite substring_middle, length_firstn, length_skipn by lia.
    lia. }
  assert (HM : length (markerOpen 0) = 52%nat) by reflexivity.
  set (p := B ++ markerOpen 0 ++ C ++ markerClose first ++ A).
  assert (Hlen : (Z.to_nat (end_ sp) <= length p)%nat).
  { unfold p. rewrite !length_app, HB, HC, HM. lia. }
  assert (Hvalid2 : validSpan (length p) second = true).
  { unfold validSpan. rewrite Hsecond.
    apply andb_true_intro; split; [apply andb_true_intro; split|].
    - now apply Z.leb_le.
    - now apply Z.ltb_lt.
    - apply Z.leb_le. lia. }
  rewrite splice_cases, Hvalid2, Hsecond, !map_id.
  rewrite substring_prefix, substring_middle, substring_from_suffix by lia.
  unfold p.
  replace (Z.to_nat (end_ sp) - Z.to_nat (start sp))%nat
    with (Z.to_nat (end_ sp - start sp)) by lia.
  replace (Z.to_nat (end_ sp))
    with (Z.to_nat (end_ sp - start sp) + length B)%nat by lia.
  rewrite <- skipn_skipn. rewrite <- HB.
  rewrite firstn_exact, skipn_exact.
  rewrite firstn_app, skipn_app, HM.
  replace (Z.to_nat (end_ sp - start sp) - 52)%nat with 0%nat by lia.
  rewrite firstn_O, skipn_O, app_nil_r.
  rewrite <- ?app_assoc. reflexivity.
Qed.

Lemma same_span_twice_cuts_the_tag_witness :
  highlight Sample.paris [Sample.geo; Sample.geo]
  = markerOpen 1 ++ JS.str "<span" ++ markerClose Sample.geo
      ++ skipn 5 (markerOpen 0) ++ JS.str "Paris" ++ markerClose Sample.geo
      ++ JS.str " is the capital.".
Proof.
  apply (same_span_twice_cuts_the_tag Sample.paris Sample.geo Sample.geo
           {| start := 0; end_ := 5 |}); reflexivity || (simpl; lia).
Defined.

(** ** The two revisions of [sendMessage] *)

Lemma revisions_one_turn (a b : Client.ChatApp) (text : list ascii)
    (result : Client.FetchResult) :
  sameButSession a b ->
  withoutCitations (text, result) ->
  sameButSession
    (fst (ClientV1.sendMessage (fun _ => result) (Client.setValue text a)))
    (fst (Client.sendMessage (fun _ => result) (Client.setValue text b)))
  /\ Forall2 sameButIdentifier
       (snd (ClientV1.sendMessage (fun _ => result)
               (Client.setValue text a)))
       (snd (Client.sendMessage (fun _ => result) (Client.setValue text b)))
  /\ Client.sessionId
       (fst (ClientV1.sendMessage (fun _ => result)
               (Client.setValue text a)))
     = Client.sessionId a.
Proof.
  intros Hab Hplain. unfold sameButSession in *.
  destruct a as [url1 id1 v1 d1 b1 l1 m1], b as [url2 id2 v2 d2 b2 l2 m2].
  cbv [Client.setSessionId Client.apiUrl Client.sessionId
       Client.messageInput_value Client.messageInput_disabled
       Client.sendButton_disabled Client.loading_display
       Client.chatMessages] in Hab.
  injection Hab as -> -> -> -> -> ->.
  unfold ClientV1.sendMessage, Client.sendMessage,
    ClientV1.sendMessage_submit, Client.sendMessage_submit.
  cbn [Client.setValue Client.messageInput_value].
  destruct (JS.trim text) as [|c message].
  - repeat split. constructor.
  - cbn [fst snd].
    split; [|split].
    + unfold ClientV1.sendMessage_resume, Client.sendMessage_resume,
        ClientV1.sendMessage_try, Client.sendMessage_try.
      destruct result as [|status [data|]]; try reflexivity.
      * destruct (Client.ok status); [|reflexivity]. simpl.
        unfold withoutCitations in Hplain. simpl in Hplain.
        unfold Client.addMessageWithCitations, renderedWithCitations.
        destruct Hplain as [-> | ->]; reflexivity.
      * destruct (Client.ok status); reflexivity.
    + constructor; [|constructor].
      repeat split. exists (c :: message), id2. now split.
    + unfold ClientV1.sendMessage_resume, ClientV1.sendMessage_try.
      destruct result as [|status [data|]]; try reflexivity;
        destruct (Client.ok status); reflexivity.
Qed.

(** X14.  On responses without citations the later revision of the
    client behaves as the earlier one did: over any session the two leave
    the same transcript, controls, input and endpoint, and issue requests
    to the same target with the same prompts.  They differ in the
    identifier of the session alone, which the earlier revision neither
    sends nor stores. *)
Theorem later_revision_extends_earlier
    (turns : list (list ascii * Client.FetchResult)) (app : Client.ChatApp)
    (Hplain : Forall withoutCitations turns) :
  sameButSession (fst (ClientV1.session app turns))
                 (fst (Client.session app turns))
  /\ Forall2 sameButIdentifier (snd (ClientV1.session app turns))
                               (snd (Client.session app turns))
  /\ Client.sessionId (fst (ClientV1.session app turns))
     = Client.sessionId app.
Proof.
  assert (H : forall a b,
             sameButSession a b ->
             sameButSession (fst (ClientV1.session a turns))
                            (fst (Client.session b turns))
             /\ Forall2 sameButIdentifier (snd (ClientV1.session a turns))
                                          (snd (Client.session b turns))
             /\ Client.sessionId (fst (ClientV1.session a turns))
                = Client.sessionId a).
  { induction Hplain as [|[text result] turns Hturn _ IH]; intros a b Hab.
    - simpl. split; [exact Hab|]. split; [constructor|reflexivity].
    - destruct (revisions_one_turn a b text result Hab Hturn)
        as (Hnext & Hreq & Hid).
      rewrite ClientFacts.session_cons.
      simpl ClientV1.session.
      destruct (ClientV1.sendMessage (fun _ => result)
                  (Client.setValue text a)) as [a1 r1].
      cbn [fst snd] in *.
      destruct (IH a1 _ Hnext) as (Hfinal & Hreqs & Hids).
      destruct (ClientV1.session a1 turns) as [a2 r2].
      cbn [fst snd] in *.
      split; [exact Hfinal|]. split.
      + now apply Forall2_app.
      + now rewrite Hids. }
  apply H. reflexivity.
Qed.

Lemma later_revision_extends_earlier_witness :
  Client.chatMessages
    (fst (ClientV1.session (Sample.idleApp "")
            [(JS.str "hello", Client.Response 200 (Some More.plainReply));
             (JS.str "again", Client.Rejected)]))
  = Client.chatMessages
      (fst (Client.session (Sample.idleApp "")
              [(JS.str "hello", Client.Response 200 (Some More.plainReply));
               (JS.str "again", Client.Rejected)])).
Proof.
  destruct (later_revision_extends_earlier
              [(JS.str "hello", Client.Response 200 (Some More.plainReply));
               (JS.str "again", Client.Rejected)]
              (Sample.idleApp "")
              ltac:(repeat constructor; right; reflexivity))
    as (Hsame & _).
  exact (f_equal Client.chatMessages Hsame).
Defined.

Lemma sourceFile_is_last_segment_witness :
  sourceFile More.flat = JS.str "notes.txt"
  /\ sourceFile More.nested = JS.str "france.md".
Proof.
  split; [|reflexivity].
  apply (proj2 (proj2 (sourceFile_is_last_segment More.flat))).
  simpl. intuition discriminate.
Defined.

(** X15.  The requests of a session are exactly those of its turns whose
    text is not blank, one each and in order, with the trimmed text as
    prompt: no failure and no empty submission before keeps a later prompt
    from being sent. *)
Theorem one_request_per_nonblank_turn
    (turns : list (list ascii * Client.FetchResult))
    (app : Client.ChatApp) :
  Forall2
    (fun turn request =>
       exists id,
         Client.body request
         = JS.stringify [(JS.str "prompt", JS.String (JS.trim (fst turn)));
                         (JS.str "sessionId", id)])
    (filter (fun turn => negb (forallb JS.isWhiteSpace (fst turn))) turns)
    (snd (Client.session app turns)).
Proof.
  revert app. induction turns as [|[text result] turns IH]; intros app.
  - constructor.
  - rewrite ClientFacts.session_cons. cbn [snd filter fst].
    destruct (forallb JS.isWhiteSpace text) eqn:Hblank.
    + apply trim_blank_iff in Hblank.
      rewrite (SessionFacts.sendMessage_blank _ (Client.setValue text app))
        by exact Hblank.
      apply IH.
    + assert (Hne : JS.trim text <> []).
      { intros H. apply trim_blank_iff in H. congruence. }
      destruct (ClientFacts.sendMessage_requests (fun _ => result)
                  (Client.setValue text app))
        as [[Hnone _]|(request & Hone & Hbody)].
      * exfalso. unfold Client.sendMessage in Hnone.
        rewrite ClientFacts.submit_some in Hnone by exact Hne.
        discriminate.
      * rewrite Hone. cbn [negb List.app]. constructor; [|apply IH].
        eexists. exact Hbody.
Qed.
